(** * OCS2: the double integrator example and the settings of the DDP solver

    A shallow embedding of

    - the class [DoubleIntegratorDynamics] of
      [ocs2_double_integrator_example/dynamics/DoubleIntegratorDynamics.h]:
      its constructor, [clone] and [computeFlowMap];
    - the structure [DDP_Settings]: its members with their initialisers, and
      [loadSettings];

    and the statements proved about them.  The solver that the settings
    configure is not part of the sources.  Where a statement is about the
    solver (the penalty of the state-only constraints, the handling of these
    constraints, the check of the backward pass, the step size control of
    the rollout), the part of the solver it is about is defined from the
    specification; each such definition says so.

    Numbers.  In the dynamics a C++ [double] is a number of the binary64
    format of IEEE 754: Rocq's primitive [float], whose operations are those
    of the processor, so that rounding, overflow, underflow, the infinities,
    the two zeros and NaN are the ones of the code.  What holds of all
    doubles is proved from the specification of these operations
    ([Prim2SF], [mul_spec], [add_spec], [div_spec]).  A member of
    [DDP_Settings] that is a [double] is only stored and read back by the
    code under study; it holds the number that is written in the source or
    in the file, a rational ([Qc], the rationals in lowest terms, so that
    equal numbers are equal terms); the parts of the solver that are defined
    from the specification compute with these numbers, as the formulas of
    the specification do.  [size_t] is [N] and [int] is [Z]; the code does
    no arithmetic on them.

    Layout: the definitions come first, one module for each part of the
    code, then the instances the statements are run on (module [example]),
    then the theorems, one module of facts for each module of definitions. *)

From Stdlib Require Import QArith Qcanon Floats Sorted.
From stdpp Require Import gmap strings list.

Open Scope Qc_scope.

(** * Scalars and fixed-size matrices (what the code takes from Eigen) *)

Module Eigen.
Local Open Scope float_scope.

(** [scalar_t] is [double]: a number of the binary64 format of IEEE 754,
    with the operations of the processor.  [x + y], [x * y] and [x / y]
    round to the nearest number, ties to even; they overflow to an
    infinity, underflow to a subnormal number or a zero, and yield NaN for
    [0 * inf], [inf - inf], [0 / 0] and [inf / inf]; a finite number that
    is not zero, divided by a zero, is an infinity. *)
Definition scalar_t : Type := float.

(** [std::isnormal]: neither zero, subnormal, infinite nor NaN. *)
Definition is_normal (x : scalar_t) : bool :=
  match classify x with
  | PNormal | NNormal => true
  | _ => false
  end.

(** The same value: equal, or zeros of either sign.  For two doubles that
    are not NaN this is what [==] tests. *)
Definition same_value (x y : scalar_t) : Prop :=
  x = y \/ (is_zero x = true /\ is_zero y = true).

(** The fixed-size types of [Dimensions<STATE_DIM_, INPUT_DIM_>].  The
    header that sets the two dimensions is not part of the sources; the
    comma initialisers of the constructor below fix them, [A_] taking four
    coefficients and [B_] two: [STATE_DIM_ = 2] and [INPUT_DIM_ = 1].  A
    matrix is the tuple of its rows. *)
Definition state_vector_t : Type := scalar_t * scalar_t.
Definition input_vector_t : Type := scalar_t.
Definition state_matrix_t : Type := (scalar_t * scalar_t) * (scalar_t * scalar_t).
Definition state_input_matrix_t : Type := scalar_t * scalar_t.

(** [A * x], a 2 x 2 matrix times a 2-vector: each coefficient is the sum of
    the two products of a row with the vector. *)
Definition state_matrix_mul (A : state_matrix_t) (x : state_vector_t) : state_vector_t :=
  let '((a00, a01), (a10, a11)) := A in
  let '(x0, x1) := x in
  (a00 * x0 + a01 * x1, a10 * x0 + a11 * x1).

(** [B * u], a 2 x 1 matrix times a 1-vector. *)
Definition state_input_matrix_mul (B : state_input_matrix_t) (u : input_vector_t)
    : state_vector_t :=
  let '(b0, b1) := B in (b0 * u, b1 * u).

(** [v + w] *)
Definition state_vector_add (v w : state_vector_t) : state_vector_t :=
  (fst v + fst w, snd v + snd w).

End Eigen.

(** * [DoubleIntegratorDynamics] *)

Module double_integrator.
Import Eigen.
Local Open Scope float_scope.

(** The private members [A_] and [B_]. *)
Record DoubleIntegratorDynamics : Type := {
  A_ : state_matrix_t;
  B_ : state_input_matrix_t
}.

(** The constructor, [DoubleIntegratorDynamics(double mass)]:
    [A_ << 0.0, 1.0, 0.0, 0.0;  B_ << 0.0, 1.0 / mass;]
    (the comma initialiser fills a matrix row by row). *)
Definition new (mass : scalar_t) : DoubleIntegratorDynamics :=
  {| A_ := ((0, 1),
            (0, 0));
     B_ := (0,
            1 / mass) |}.

(** [computeFlowMap(time, state, input, stateDerivative)]:
    [stateDerivative = A_ * state + B_ * input].  The result parameter is
    returned. *)
Definition computeFlowMap (self : DoubleIntegratorDynamics)
    (time : scalar_t) (state : state_vector_t) (input : input_vector_t)
    : state_vector_t :=
  state_vector_add (state_matrix_mul (A_ self) state)
                   (state_input_matrix_mul (B_ self) input).

(** [clone()]: a new object that is copy constructed from this one, member
    by member. *)
Definition clone (self : DoubleIntegratorDynamics) : DoubleIntegratorDynamics :=
  {| A_ := A_ self; B_ := B_ self |}.

End double_integrator.

(** * Outcomes and the diagnostic stream *)

Module io.

(** The error taxonomy of the solver. *)
Inductive Error : Type :=
| IntegrationFailure
| NumericalInstability
| ConstraintInfeasible
| ConfigurationError.

(** A call returns a value or throws. *)
Inductive result (A : Type) : Type :=
| Ok (a : A)
| Throw (e : Error).
Arguments Ok {A} a.
Arguments Throw {A} e.

(** A computation that may throw and that writes lines to [std::cerr]:
    its outcome, and the lines written up to the return or the throw. *)
Definition io (A : Type) : Type := result A * list string.

Definition ret {A} (a : A) : io A := (Ok a, []).

Definition bind {A B} (m : io A) (f : A -> io B) : io B :=
  match m with
  | (Ok a, out) => let '(r, out') := f a in (r, out ++ out')
  | (Throw e, out) => (Throw e, out)
  end.

Definition throw {A} (e : Error) : io A := (Throw e, []).

(** [if (verbose) std::cerr << ... ;] *)
Definition print_if (verbose : bool) (lines : list string) : io unit :=
  (Ok tt, if verbose then lines else []).

Definition of_result {A} (r : result A) : io A := (r, []).

(** The computation returns, with a value that satisfies [P]. *)
Definition returns {A} (m : io A) (P : A -> Prop) : Prop :=
  exists a out, m = (Ok a, out) /\ P a.

End io.

Notation "'let!' x ':=' m 'in' k" := (io.bind m (fun x => k))
  (at level 10, x name, m at level 100, k at level 200).

(** * Reading a value of the configuration file *)

Module loadData.
Import io.

(** The data of a node of the property tree, held at the type it is read
    at. *)
Inductive pdata : Type :=
| PSize (n : N)
| PInt (z : Z)
| PDouble (q : Qc)
| PBool (b : bool)
| PString (s : string).

(** The tree [boost::property_tree::read_info] builds from a configuration
    file, as the map from the path of a node to its data.  A configuration
    file is given by its tree. *)
Abbreviation ptree := (gmap string pdata).

(** The configuration files: the map from the name of a file to its tree.
    A name the map does not have is a file that is missing, or that is not
    in the INFO format. *)
Abbreviation files := (gmap string ptree).

(** Modelled from the spec: [boost::property_tree::read_info(filename, pt)],
    which is not part of the sources.  It reads the file into the tree [pt],
    and throws when there is no such file or when it cannot be parsed;
    such "malformed or inconsistent settings" are a [ConfigurationError]. *)
Definition read_info (fs : files) (filename : string) : io ptree :=
  match fs !! filename with
  | Some pt => ret pt
  | None => throw ConfigurationError
  end.

(** [pt.get<T>]: how the data of a node is read at type [T]. *)
Class Translator (T : Type) : Type := translate : pdata -> option T.

#[export] Instance translate_size_t : Translator N :=
  fun d => match d with PSize n => Some n | _ => None end.
#[export] Instance translate_int : Translator Z :=
  fun d => match d with PInt z => Some z | _ => None end.
#[export] Instance translate_double : Translator Qc :=
  fun d => match d with PDouble q => Some q | _ => None end.
#[export] Instance translate_bool : Translator bool :=
  fun d => match d with PBool b => Some b | _ => None end.
#[export] Instance translate_string : Translator string :=
  fun d => match d with PString s => Some s | _ => None end.

(** Modelled from the spec: [loadData::loadPtreeValue(pt, value, name,
    verbose)] of [ocs2_core/misc/LoadData.h], which is not part of the
    sources.  Each named option "has a documented default and is
    independently overridable", and [loadSettings] documents that "if a
    value for a specific field is not defined it will set to the default
    value": a path the tree does not have leaves [value] as it is, a path
    it has replaces [value] by the data read at the type of [value], and
    data that cannot be read at that type is malformed settings, a
    [ConfigurationError].  When [verbose], the option is reported on
    [std::cerr] (one line, which stands for the text printed). *)
Definition loadPtreeValue {T} `{Translator T}
    (pt : ptree) (value : T) (name : string) (verbose : bool) : io T :=
  match pt !! name with
  | None =>
      let! _ := print_if verbose [" #### '" +:+ name +:+ "' (default)"] in
      ret value
  | Some d =>
      match translate d with
      | Some v =>
          let! _ := print_if verbose [" #### '" +:+ name +:+ "'"] in
          ret v
      | None => throw ConfigurationError
      end
  end.

(** The type data is held at. *)
Inductive data_type : Type :=
| size_t_data | int_data | double_data | bool_data | string_data.

Definition type_of (d : pdata) : data_type :=
  match d with
  | PSize _ => size_t_data
  | PInt _ => int_data
  | PDouble _ => double_data
  | PBool _ => bool_data
  | PString _ => string_data
  end.

(** What [loadPtreeValue] leaves in a member that held [value], when it
    returns: [v] is [value] if the tree has no node at [name], and the data
    of that node otherwise. *)
Definition loaded {T} `{Translator T}
    (pt : ptree) (value : T) (name : string) (v : T) : Prop :=
  match pt !! name with
  | None => v = value
  | Some d => translate d = Some v
  end.

End loadData.

(** * [DDP_Settings] *)

Module ddp.
Import io loadData.

(** [DDP_Strategy], with the two enumerators [loadSettings] switches on. *)
Inductive DDP_Strategy : Type :=
| LINE_SEARCH
| TRUST_REGION.

(** What [DDP_Settings] takes from [ocs2_ddp/Strategy_Settings.h], which is
    not part of the sources: the two structures of strategy settings, each
    default constructible and with a [loadSettings(filename, fieldName,
    verbose)] of its own, and the conversions between a [DDP_Strategy] and
    its name. *)
Class Strategy_Settings : Type := {
  Line_Search : Type;
  Trust_Region : Type;
  Line_Search_default : Line_Search;
  Trust_Region_default : Trust_Region;
  Line_Search_loadSettings : Line_Search -> ptree -> string -> bool -> io Line_Search;
  Trust_Region_loadSettings : Trust_Region -> ptree -> string -> bool -> io Trust_Region;
  toString : DDP_Strategy -> string;
  fromString : string -> result DDP_Strategy
}.

(** The members of [struct DDP_Settings], in the order of the source. *)
Record DDP_Settings `{Strategy_Settings} : Type := {
  maxNumIterations_ : N;
  minRelCost_ : Qc;
  stateConstraintPenaltyCoeff_ : Qc;
  stateConstraintPenaltyBase_ : Qc;
  inequalityConstraintMu_ : Qc;
  inequalityConstraintDelta_ : Qc;
  meritFunctionRho_ : Qc;
  constraintStepSize_ : Qc;
  displayInfo_ : bool;
  displayShortSummary_ : bool;
  absTolODE_ : Qc;
  relTolODE_ : Qc;
  maxNumStepsPerSecond_ : N;
  minTimeStep_ : Qc;
  minAbsConstraint1ISE_ : Qc;
  minRelConstraint1ISE_ : Qc;
  simulationIsConstrained_ : bool;
  noStateConstraints_ : bool;
  checkNumericalStability_ : bool;
  nThreads_ : N;
  threadPriority_ : Z;
  useRiccatiSolver_ : bool;
  useFeedbackPolicy_ : bool;
  debugPrintRollout_ : bool;
  debugCaching_ : bool;
  strategy_ : DDP_Strategy;
  lineSearch_ : Line_Search;
  trustRegion_ : Trust_Region
}.

(** [10^-n], for the literals [1e-3], [1e-6] and [1e-9]. *)
Definition e_minus (n : positive) : Qc := Q2Qc (1 # (10 ^ n)).

(** A default constructed [DDP_Settings]: the member initialisers. *)
Definition DDP_Settings_default `{Strategy_Settings} : DDP_Settings := {|
  maxNumIterations_ := 15;
  minRelCost_ := e_minus 3;
  stateConstraintPenaltyCoeff_ := 0;
  stateConstraintPenaltyBase_ := 1;
  inequalityConstraintMu_ := 0;
  inequalityConstraintDelta_ := e_minus 6;
  meritFunctionRho_ := 1;
  constraintStepSize_ := 1;
  displayInfo_ := false;
  displayShortSummary_ := false;
  absTolODE_ := e_minus 9;
  relTolODE_ := e_minus 6;
  maxNumStepsPerSecond_ := 10000;
  minTimeStep_ := e_minus 3;
  minAbsConstraint1ISE_ := e_minus 3;
  minRelConstraint1ISE_ := e_minus 3;
  simulationIsConstrained_ := false;
  noStateConstraints_ := false;
  checkNumericalStability_ := true;
  nThreads_ := 1;
  threadPriority_ := 99;
  useRiccatiSolver_ := true;
  useFeedbackPolicy_ := false;
  debugPrintRollout_ := false;
  debugCaching_ := false;
  strategy_ := LINE_SEARCH;
  lineSearch_ := Line_Search_default;
  trustRegion_ := Trust_Region_default
|}.

Definition rule : string :=
  " #### =============================================================================".

(** [loadSettings(filename, fieldName, verbose)], from the point where
    [read_info] has read the file: [filename] is the file as its tree.  The
    members are passed to [loadPtreeValue] by reference; here each call
    returns the new value of its member, and the object is put together at
    the end. *)
Definition loadSettings `{Strategy_Settings} (self : DDP_Settings)
    (filename : ptree) (fieldName : string) (verbose : bool) : io DDP_Settings :=
  let pt := filename in
  let! _ := print_if verbose [""; " #### DDP Settings: "; rule] in
  let! nThreads := loadPtreeValue pt (nThreads_ self) (fieldName +:+ ".nThreads") verbose in
  let! threadPriority := loadPtreeValue pt (threadPriority_ self) (fieldName +:+ ".threadPriority") verbose in
  let! maxNumIterations := loadPtreeValue pt (maxNumIterations_ self) (fieldName +:+ ".maxNumIterations") verbose in
  let! minRelCost := loadPtreeValue pt (minRelCost_ self) (fieldName +:+ ".minRelCost") verbose in
  let! stateConstraintPenaltyCoeff := loadPtreeValue pt (stateConstraintPenaltyCoeff_ self) (fieldName +:+ ".stateConstraintPenaltyCoeff") verbose in
  let! stateConstraintPenaltyBase := loadPtreeValue pt (stateConstraintPenaltyBase_ self) (fieldName +:+ ".stateConstraintPenaltyBase") verbose in
  let! inequalityConstraintMu := loadPtreeValue pt (inequalityConstraintMu_ self) (fieldName +:+ ".inequalityConstraintMu") verbose in
  let! inequalityConstraintDelta := loadPtreeValue pt (inequalityConstraintDelta_ self) (fieldName +:+ ".inequalityConstraintDelta") verbose in
  let! meritFunctionRho := loadPtreeValue pt (meritFunctionRho_ self) (fieldName +:+ ".meritFunctionRho") verbose in
  let! constraintStepSize := loadPtreeValue pt (constraintStepSize_ self) (fieldName +:+ ".constraintStepSize") verbose in
  let! displayInfo := loadPtreeValue pt (displayInfo_ self) (fieldName +:+ ".displayInfo") verbose in
  let! displayShortSummary := loadPtreeValue pt (displayShortSummary_ self) (fieldName +:+ ".displayShortSummary") verbose in
  let! absTolODE := loadPtreeValue pt (absTolODE_ self) (fieldName +:+ ".AbsTolODE") verbose in
  let! relTolODE := loadPtreeValue pt (relTolODE_ self) (fieldName +:+ ".RelTolODE") verbose in
  let! maxNumStepsPerSecond := loadPtreeValue pt (maxNumStepsPerSecond_ self) (fieldName +:+ ".maxNumStepsPerSecond") verbose in
  let! minTimeStep := loadPtreeValue pt (minTimeStep_ self) (fieldName +:+ ".minTimeStep") verbose in
  let! simulationIsConstrained := loadPtreeValue pt (simulationIsConstrained_ self) (fieldName +:+ ".simulationIsConstrained") verbose in
  let! noStateConstraints := loadPtreeValue pt (noStateConstraints_ self) (fieldName +:+ ".noStateConstraints") verbose in
  let! minAbsConstraint1ISE := loadPtreeValue pt (minAbsConstraint1ISE_ self) (fieldName +:+ ".minAbsConstraint1ISE") verbose in
  let! minRelConstraint1ISE := loadPtreeValue pt (minRelConstraint1ISE_ self) (fieldName +:+ ".minRelConstraint1ISE") verbose in
  let! checkNumericalStability := loadPtreeValue pt (checkNumericalStability_ self) (fieldName +:+ ".checkNumericalStability") verbose in
  let! useRiccatiSolver := loadPtreeValue pt (useRiccatiSolver_ self) (fieldName +:+ ".useRiccatiSolver") verbose in
  let! useFeedbackPolicy := loadPtreeValue pt (useFeedbackPolicy_ self) (fieldName +:+ ".useFeedbackPolicy") verbose in
  let! debugPrintRollout := loadPtreeValue pt (debugPrintRollout_ self) (fieldName +:+ ".debugPrintRollout") verbose in
  let! debugCaching := loadPtreeValue pt (debugCaching_ self) (fieldName +:+ ".debugCaching") verbose in
  let! strategyName := loadPtreeValue pt (toString (strategy_ self)) (fieldName +:+ ".strategy") verbose in
  let! strategy := of_result (fromString strategyName) in
  let! blocks :=
    match strategy with
    | LINE_SEARCH =>
        let! lineSearch := Line_Search_loadSettings (lineSearch_ self) filename (fieldName +:+ ".lineSearch") verbose in
        ret (lineSearch, trustRegion_ self)
    | TRUST_REGION =>
        let! trustRegion := Trust_Region_loadSettings (trustRegion_ self) filename (fieldName +:+ ".trustRegion") verbose in
        ret (lineSearch_ self, trustRegion)
    end in
  let! _ := print_if verbose [rule] in
  ret {|
    maxNumIterations_ := maxNumIterations;
    minRelCost_ := minRelCost;
    stateConstraintPenaltyCoeff_ := stateConstraintPenaltyCoeff;
    stateConstraintPenaltyBase_ := stateConstraintPenaltyBase;
    inequalityConstraintMu_ := inequalityConstraintMu;
    inequalityConstraintDelta_ := inequalityConstraintDelta;
    meritFunctionRho_ := meritFunctionRho;
    constraintStepSize_ := constraintStepSize;
    displayInfo_ := displayInfo;
    displayShortSummary_ := displayShortSummary;
    absTolODE_ := absTolODE;
    relTolODE_ := relTolODE;
    maxNumStepsPerSecond_ := maxNumStepsPerSecond;
    minTimeStep_ := minTimeStep;
    minAbsConstraint1ISE_ := minAbsConstraint1ISE;
    minRelConstraint1ISE_ := minRelConstraint1ISE;
    simulationIsConstrained_ := simulationIsConstrained;
    noStateConstraints_ := noStateConstraints;
    checkNumericalStability_ := checkNumericalStability;
    nThreads_ := nThreads;
    threadPriority_ := threadPriority;
    useRiccatiSolver_ := useRiccatiSolver;
    useFeedbackPolicy_ := useFeedbackPolicy;
    debugPrintRollout_ := debugPrintRollout;
    debugCaching_ := debugCaching;
    strategy_ := strategy;
    lineSearch_ := fst blocks;
    trustRegion_ := snd blocks
  |}.

(** [loadSettings(filename, fieldName, verbose)] as a whole.  Its first
    statement, [read_info(filename, pt)], reads the file named [filename];
    when it throws, nothing has been printed and no member has changed.
    The rest of the function is [loadSettings] above, on the tree that was
    read. *)
Definition loadSettings_file `{Strategy_Settings} (self : DDP_Settings)
    (fs : files) (filename fieldName : string) (verbose : bool) : io DDP_Settings :=
  let! pt := read_info fs filename in
  loadSettings self pt fieldName verbose.

(** The options that [loadSettings] reads into a member at the type of the
    member, each under the name it has in the file. *)
Inductive option_name : Type :=
| nThreads | threadPriority | maxNumIterations | minRelCost
| stateConstraintPenaltyCoeff | stateConstraintPenaltyBase
| inequalityConstraintMu | inequalityConstraintDelta | meritFunctionRho
| constraintStepSize | displayInfo | displayShortSummary | AbsTolODE
| RelTolODE | maxNumStepsPerSecond | minTimeStep | simulationIsConstrained
| noStateConstraints | minAbsConstraint1ISE | minRelConstraint1ISE
| checkNumericalStability | useRiccatiSolver | useFeedbackPolicy
| debugPrintRollout | debugCaching.

(** The path of an option below [fieldName]. *)
Definition option_key (o : option_name) : string :=
  match o with
  | nThreads => ".nThreads"
  | threadPriority => ".threadPriority"
  | maxNumIterations => ".maxNumIterations"
  | minRelCost => ".minRelCost"
  | stateConstraintPenaltyCoeff => ".stateConstraintPenaltyCoeff"
  | stateConstraintPenaltyBase => ".stateConstraintPenaltyBase"
  | inequalityConstraintMu => ".inequalityConstraintMu"
  | inequalityConstraintDelta => ".inequalityConstraintDelta"
  | meritFunctionRho => ".meritFunctionRho"
  | constraintStepSize => ".constraintStepSize"
  | displayInfo => ".displayInfo"
  | displayShortSummary => ".displayShortSummary"
  | AbsTolODE => ".AbsTolODE"
  | RelTolODE => ".RelTolODE"
  | maxNumStepsPerSecond => ".maxNumStepsPerSecond"
  | minTimeStep => ".minTimeStep"
  | simulationIsConstrained => ".simulationIsConstrained"
  | noStateConstraints => ".noStateConstraints"
  | minAbsConstraint1ISE => ".minAbsConstraint1ISE"
  | minRelConstraint1ISE => ".minRelConstraint1ISE"
  | checkNumericalStability => ".checkNumericalStability"
  | useRiccatiSolver => ".useRiccatiSolver"
  | useFeedbackPolicy => ".useFeedbackPolicy"
  | debugPrintRollout => ".debugPrintRollout"
  | debugCaching => ".debugCaching"
  end.

(** The member an option is read into, as data of the type of the member. *)
Definition member `{Strategy_Settings} (o : option_name) (s : DDP_Settings) : pdata :=
  match o with
  | nThreads => PSize (nThreads_ s)
  | threadPriority => PInt (threadPriority_ s)
  | maxNumIterations => PSize (maxNumIterations_ s)
  | minRelCost => PDouble (minRelCost_ s)
  | stateConstraintPenaltyCoeff => PDouble (stateConstraintPenaltyCoeff_ s)
  | stateConstraintPenaltyBase => PDouble (stateConstraintPenaltyBase_ s)
  | inequalityConstraintMu => PDouble (inequalityConstraintMu_ s)
  | inequalityConstraintDelta => PDouble (inequalityConstraintDelta_ s)
  | meritFunctionRho => PDouble (meritFunctionRho_ s)
  | constraintStepSize => PDouble (constraintStepSize_ s)
  | displayInfo => PBool (displayInfo_ s)
  | displayShortSummary => PBool (displayShortSummary_ s)
  | AbsTolODE => PDouble (absTolODE_ s)
  | RelTolODE => PDouble (relTolODE_ s)
  | maxNumStepsPerSecond => PSize (maxNumStepsPerSecond_ s)
  | minTimeStep => PDouble (minTimeStep_ s)
  | simulationIsConstrained => PBool (simulationIsConstrained_ s)
  | noStateConstraints => PBool (noStateConstraints_ s)
  | minAbsConstraint1ISE => PDouble (minAbsConstraint1ISE_ s)
  | minRelConstraint1ISE => PDouble (minRelConstraint1ISE_ s)
  | checkNumericalStability => PBool (checkNumericalStability_ s)
  | useRiccatiSolver => PBool (useRiccatiSolver_ s)
  | useFeedbackPolicy => PBool (useFeedbackPolicy_ s)
  | debugPrintRollout => PBool (debugPrintRollout_ s)
  | debugCaching => PBool (debugCaching_ s)
  end.

End ddp.

(** * The penalty of the state-only constraints *)

Module constraint_handling.
Import ddp.

(** Modelled from the spec: the penalty coefficient of the state-only
    constraints at an outer iteration of the solver; the solver, which
    computes it, is not part of the sources.  The constraint state holds a
    "per-iteration penalty coefficient (grows geometrically: coefficient x
    base^iteration)", and the settings document their two members as
    [p(i) = alpha a^i], [alpha] being [stateConstraintPenaltyCoeff_] and [a]
    being [stateConstraintPenaltyBase_]. *)
Definition stateConstraintPenalty `{Strategy_Settings}
    (settings : DDP_Settings) (iteration : nat) : Qc :=
  stateConstraintPenaltyCoeff_ settings * stateConstraintPenaltyBase_ settings ^ iteration.

(** What the constraint handling takes from the problem and from the
    rollout: the samples of a trajectory, the cost term at a sample, the
    weight a sample has in an integral over the horizon, and the state-only
    constraints, each by its value at a sample (zero where it is met). *)
Class Problem : Type := {
  Sample : Type;
  cost : Sample -> Qc;
  weight : Sample -> Qc;
  stateOnlyConstraints : list (Sample -> Qc)
}.

(** The same problem with other state-only constraints. *)
Definition with_constraints (p : Problem) (constraints : list (@Sample p -> Qc)) : Problem :=
  {| Sample := @Sample p; cost := @cost p; weight := @weight p;
     stateOnlyConstraints := constraints |}.

(** The squared error of the state-only constraints at a sample. *)
Definition squaredError `{Problem} (x : Sample) : Qc :=
  fold_right (fun h acc => h x * h x + acc) 0 stateOnlyConstraints.

(** Modelled from the spec: the layer decides "per settings flags, whether
    state-only or inequality handling is active at all", and
    [noStateConstraints_] is the flag for the state-only constraints. *)
Definition stateConstraintsActive `{Strategy_Settings} (settings : DDP_Settings) : bool :=
  negb (noStateConstraints_ settings).

(** Modelled from the spec: the constraint ISE of a rollout, the integral of
    the squared error over the trajectory, which the rollout accumulates "if
    state-only constraints are active"; [None] when it is not computed. *)
Definition constraintISE `{Strategy_Settings} `{Problem}
    (settings : DDP_Settings) (trajectory : list Sample) : option Qc :=
  if stateConstraintsActive settings
  then Some (fold_right (fun x acc => weight x * squaredError x + acc) 0 trajectory)
  else None.

(** Modelled from the spec: the cost term of a sample as the backward pass
    takes it: the state-only constraints "are handled via the exponential
    penalty coefficient ... added to the cost terms before the recursion;
    noStateConstraints=true skips this path entirely". *)
Definition penalizedCost `{Strategy_Settings} `{Problem}
    (settings : DDP_Settings) (iteration : nat) (x : Sample) : Qc :=
  if stateConstraintsActive settings
  then cost x + stateConstraintPenalty settings iteration * squaredError x
  else cost x.

(** What an outer iteration takes from the constraint handling: the cost
    terms along the trajectory and the constraint ISE. *)
Definition handled `{Strategy_Settings} `{Problem}
    (settings : DDP_Settings) (iteration : nat) (trajectory : list Sample)
    : list Qc * option Qc :=
  (map (penalizedCost settings iteration) trajectory, constraintISE settings trajectory).

End constraint_handling.

(** * The check of the backward pass *)

Module backward_pass.
Import io ddp.

(** What the check takes from the Riccati recursion: the local model at a
    sample, the Hessian of the value function, the gains, the Hessian at a
    sample from the local model there and the Hessian at the sample after
    it, the gain at a sample, the test of positive semidefiniteness, and the
    regularization of the Hessian of a local model. *)
Class Riccati : Type := {
  LocalModel : Type;
  Hessian : Type;
  Gain : Type;
  riccati_step : LocalModel -> Hessian -> Hessian;
  gain : LocalModel -> Hessian -> Gain;
  positive_semidefinite : Hessian -> bool;
  regularize : LocalModel -> LocalModel
}.

(** The Hessians of the value function along the recursion, from the sample
    at the terminal time to the one at the initial time, and the gains that
    belong to them.  [V] is the Hessian at the terminal time. *)
Fixpoint hessians `{Riccati} (models : list LocalModel) (V : Hessian) : list Hessian :=
  match models with
  | [] => []
  | m :: earlier => riccati_step m V :: hessians earlier (riccati_step m V)
  end.

Fixpoint gains_of `{Riccati} (models : list LocalModel) (V : Hessian) : list Gain :=
  match models with
  | [] => []
  | m :: earlier => gain m (riccati_step m V) :: gains_of earlier (riccati_step m V)
  end.

(** Modelled from the spec: the backward pass, which is not part of the
    sources, as far as its check goes.  It solves the recursion "from the
    terminal time to the initial time"; "if checkNumericalStability is set,
    the pass validates positive-(semi)definiteness of the value-function
    Hessian at each sample and fails with NumericalInstability rather than
    returning a corrupted gain".  [models] are the local models from the
    terminal time on and [V] is the Hessian at the terminal time, the first
    sample that is validated; the Hessian at each sample before it is
    validated before the recursion goes on from it. *)
Fixpoint backwardPass `{Strategy_Settings} `{Riccati}
    (settings : DDP_Settings) (models : list LocalModel) (V : Hessian)
    : result (list Gain) :=
  if checkNumericalStability_ settings && negb (positive_semidefinite V)
  then Throw NumericalInstability
  else
    match models with
    | [] => Ok []
    | m :: earlier =>
        match backwardPass settings earlier (riccati_step m V) with
        | Ok gains => Ok (gain m (riccati_step m V) :: gains)
        | Throw e => Throw e
        end
    end.

(** The local models after [k] regularizations. *)
Definition regularized `{Riccati} (k : nat) (models : list LocalModel) : list LocalModel :=
  Nat.iter k (map regularize) models.

(** Modelled from the spec: the retry policy of the solver for a backward
    pass that fails.  [NumericalInstability] is "fatal for the current
    backward pass; triggers Hessian regularization retry (bounded attempts)
    before failing the solve".  [attempts] is the bound on the retries; the
    result comes with the number of backward passes that were run. *)
Fixpoint backwardPassWithRetry `{Strategy_Settings} `{Riccati}
    (attempts : nat) (settings : DDP_Settings) (models : list LocalModel) (V : Hessian)
    : result (list Gain) * nat :=
  match backwardPass settings models V with
  | Ok gains => (Ok gains, 1%nat)
  | Throw NumericalInstability =>
      match attempts with
      | O => (Throw NumericalInstability, 1%nat)
      | S attempts' =>
          let '(r, passes) :=
            backwardPassWithRetry attempts' settings (map regularize models) V in
          (r, S passes)
      end
  | Throw e => (Throw e, 1%nat)
  end.

End backward_pass.

(** * The step size control of the rollout *)

Module rollout.
Import io ddp.

(** The ODE step integrator, an external collaborator of the rollout: the
    states it integrates; the state after the step of size [h] that it
    takes at time [t] from the state [x]; whether the local error of that
    step exceeds the tolerance set by the absolute and the relative
    tolerance; and the step sizes it proposes, one after the other, for the
    retries of a step of size [h] that is rejected at [t] and [x].  These
    are finitely many: a retry takes "a smaller step", and there are only
    finitely many doubles between the minimum step size and the size that
    was rejected. *)
Class Integrator : Type := {
  State : Type;
  step : forall (t : Qc) (x : State) (h : Qc), State;
  exceeds_tolerance : forall (absTol relTol t : Qc) (x : State) (h : Qc), bool;
  smaller_steps : forall (t : Qc) (x : State) (h : Qc), list Qc
}.

(** Modelled from the spec: the rollout integrates with "a minimum step
    size".  A step is first tried with the size it is started with, and no
    less than the minimum step size. *)
Definition first_step (minTimeStep h : Qc) : Qc :=
  if decide (h <= minTimeStep) then minTimeStep else h.

(** Modelled from the spec: a rejected step is "retried with smaller step
    ..., down to the minimum step size".  The sizes of the retries after the
    size [last] was rejected: each proposed size that is smaller than the
    size tried before it and above the minimum step size, and in the end
    the minimum step size itself, unless it was the last size tried. *)
Fixpoint retry_steps (minTimeStep last : Qc) (proposed : list Qc) : list Qc :=
  match proposed with
  | [] => if decide (minTimeStep < last) then [minTimeStep] else []
  | h :: later =>
      if decide (minTimeStep < h /\ h < last)
      then h :: retry_steps minTimeStep h later
      else retry_steps minTimeStep last later
  end.

(** Modelled from the spec: the sizes a step is tried with, in turn, as
    long as the local error exceeds the tolerance. *)
Definition step_sizes `{Strategy_Settings} `{Integrator}
    (settings : DDP_Settings) (t : Qc) (x : State) (h : Qc) : list Qc :=
  first_step (minTimeStep_ settings) h
  :: retry_steps (minTimeStep_ settings) (first_step (minTimeStep_ settings) h)
       (smaller_steps t x (first_step (minTimeStep_ settings) h)).

(** Modelled from the spec: the step is taken with the first of the sizes
    whose local error is within the tolerance; the sizes before it are
    rejected, and the step "fails with IntegrationFailure" when all are. *)
Fixpoint accept (exceeds : Qc -> bool) (sizes : list Qc) : result Qc :=
  match sizes with
  | [] => Throw IntegrationFailure
  | h :: smaller => if exceeds h then accept exceeds smaller else Ok h
  end.

(** Modelled from the spec: one integration step of the trajectory rollout,
    which is not part of the sources.  "Integration step is rejected and
    retried with smaller step if local error exceeds tolerance, down to the
    minimum step size, after which it fails with IntegrationFailure."  The
    step is started with the size [h]; the result is the size of the step
    that is accepted, or the failure. *)
Definition integrate_step `{Strategy_Settings} `{Integrator}
    (settings : DDP_Settings) (t : Qc) (x : State) (h : Qc) : result Qc :=
  accept (exceeds_tolerance (absTolODE_ settings) (relTolODE_ settings) t x)
         (step_sizes settings t x h).

(** Modelled from the spec: the trajectory rollout, which is not part of the
    sources, as far as its steps go.  It integrates "forward over the
    horizon with an adaptive-step ODE method", one step after the other;
    the failure of a step is "fatal for the current rollout attempt".  [n]
    is the number of steps that span the horizon, each step is started with
    the size the step before it was accepted with, and the result is the
    time and the state after each step. *)
Fixpoint rollout `{Strategy_Settings} `{Integrator}
    (settings : DDP_Settings) (n : nat) (t : Qc) (x : State) (h : Qc)
    : result (list (Qc * State)) :=
  match n with
  | O => Ok []
  | S n' =>
      match integrate_step settings t x h with
      | Ok h' =>
          match rollout settings n' (t + h') (step t x h') h' with
          | Ok trajectory => Ok ((t + h', step t x h') :: trajectory)
          | Throw e => Throw e
          end
      | Throw e => Throw e
      end
  end.

(** Modelled from the spec: where the step after the first [k] steps of a
    rollout starts: the time, the state, and the size the step is started
    with. *)
Fixpoint start_of_step `{Strategy_Settings} `{Integrator}
    (settings : DDP_Settings) (k : nat) (t : Qc) (x : State) (h : Qc)
    : result (Qc * State * Qc) :=
  match k with
  | O => Ok (t, x, h)
  | S k' =>
      match integrate_step settings t x h with
      | Ok h' => start_of_step settings k' (t + h') (step t x h') h'
      | Throw e => Throw e
      end
  end.

End rollout.

(** * Instances to run the definitions on *)

Module example.
Import io loadData ddp.

(** Strategy settings of one option each, and the names [LINE_SEARCH] and
    [TRUST_REGION] for the two strategies. *)
Definition strategy_settings : Strategy_Settings := {|
  Line_Search := Qc;
  Trust_Region := Qc;
  Line_Search_default := 1;
  Trust_Region_default := 1;
  Line_Search_loadSettings := fun self filename fieldName verbose =>
    loadPtreeValue filename self (fieldName +:+ ".maxStepLength") verbose;
  Trust_Region_loadSettings := fun self filename fieldName verbose =>
    loadPtreeValue filename self (fieldName +:+ ".initialRadius") verbose;
  toString := fun strategy =>
    match strategy with
    | LINE_SEARCH => "LINE_SEARCH"
    | TRUST_REGION => "TRUST_REGION"
    end;
  fromString := fun name =>
    if String.eqb name "LINE_SEARCH" then Ok LINE_SEARCH
    else if String.eqb name "TRUST_REGION" then Ok TRUST_REGION
    else Throw ConfigurationError
|}.

(** The default constructed settings, with these strategy settings. *)
Definition default : @DDP_Settings strategy_settings := DDP_Settings_default.

(** A file that sets two options of the field [ddp], selects the trust
    region strategy, and has a block for either strategy. *)
Definition file : ptree :=
  <[ "ddp.maxNumIterations" := PSize 20 ]>
  (<[ "ddp.minRelCost" := PDouble (Q2Qc (1 # 100)) ]>
  (<[ "ddp.strategy" := PString "TRUST_REGION" ]>
  (<[ "ddp.trustRegion.initialRadius" := PDouble (Q2Qc 2) ]>
  (<[ "ddp.lineSearch.maxStepLength" := PDouble (Q2Qc 3) ]> ∅)))).

(** The settings [loadSettings] makes of [file]. *)
Definition settings : @DDP_Settings strategy_settings := {|
  maxNumIterations_ := 20;
  minRelCost_ := Q2Qc (1 # 100);
  stateConstraintPenaltyCoeff_ := 0;
  stateConstraintPenaltyBase_ := 1;
  inequalityConstraintMu_ := 0;
  inequalityConstraintDelta_ := e_minus 6;
  meritFunctionRho_ := 1;
  constraintStepSize_ := 1;
  displayInfo_ := false;
  displayShortSummary_ := false;
  absTolODE_ := e_minus 9;
  relTolODE_ := e_minus 6;
  maxNumStepsPerSecond_ := 10000;
  minTimeStep_ := e_minus 3;
  minAbsConstraint1ISE_ := e_minus 3;
  minRelConstraint1ISE_ := e_minus 3;
  simulationIsConstrained_ := false;
  noStateConstraints_ := false;
  checkNumericalStability_ := true;
  nThreads_ := 1;
  threadPriority_ := 99;
  useRiccatiSolver_ := true;
  useFeedbackPolicy_ := false;
  debugPrintRollout_ := false;
  debugCaching_ := false;
  strategy_ := TRUST_REGION;
  lineSearch_ := (1 : @Line_Search strategy_settings);
  trustRegion_ := (Q2Qc 2 : @Trust_Region strategy_settings)
|}.

(** An integrator that proposes to halve a rejected step, four times, for a
    trajectory whose steps meet the tolerance only below the size 1/2000. *)
Definition halving : rollout.Integrator := {|
  rollout.State := unit;
  rollout.step := fun t x h => x;
  rollout.exceeds_tolerance := fun absTol relTol t x h => bool_decide (Q2Qc (1 # 2000) <= h);
  rollout.smaller_steps := fun t x h =>
    [h / Q2Qc 2; h / Q2Qc 4; h / Q2Qc 8; h / Q2Qc 16]
|}.

(** The same integrator for a trajectory whose steps meet the tolerance
    from the size 1/400 down. *)
Definition coarse : rollout.Integrator := {|
  rollout.State := unit;
  rollout.step := fun t x h => x;
  rollout.exceeds_tolerance := fun absTol relTol t x h => bool_decide (Q2Qc (1 # 400) < h);
  rollout.smaller_steps := fun t x h =>
    [h / Q2Qc 2; h / Q2Qc 4; h / Q2Qc 8; h / Q2Qc 16]
|}.

(** A file that sets the flag [noStateConstraints], and the settings loaded
    from it. *)
Definition fast_file : ptree := <[ "ddp.noStateConstraints" := PBool true ]> ∅.

(** The files that can be read. *)
Definition config_files : files :=
  <[ "config.info" := file ]> (<[ "fast.info" := fast_file ]> ∅).

Definition fast_settings : @DDP_Settings strategy_settings :=
  match fst (loadSettings default fast_file "ddp" false) with
  | Ok s => s
  | Throw _ => default
  end.

(** The settings after [fast_file] is loaded into [settings], and the
    settings loaded from the two files merged, [fast_file] first. *)
Definition reloaded : @DDP_Settings strategy_settings :=
  match fst (loadSettings settings fast_file "ddp" false) with
  | Ok s => s
  | Throw _ => default
  end.

Definition merged : @DDP_Settings strategy_settings :=
  match fst (loadSettings default (fast_file ∪ file) "ddp" false) with
  | Ok s => s
  | Throw _ => default
  end.

(** A problem whose samples are numbers, with the cost [x^2] and the
    state-only constraint [x = 1]. *)
Definition problem : constraint_handling.Problem := {|
  constraint_handling.Sample := Qc;
  constraint_handling.cost := fun x => x * x;
  constraint_handling.weight := fun x => 1;
  constraint_handling.stateOnlyConstraints := [fun x => x - 1]
|}.

(** A scalar recursion: the Hessian at a sample is the one after it plus
    the curvature of the local model, it is its own gain, and a
    regularization adds one to the curvature. *)
Definition scalar_riccati : backward_pass.Riccati := {|
  backward_pass.LocalModel := Qc;
  backward_pass.Hessian := Qc;
  backward_pass.Gain := Qc;
  backward_pass.riccati_step := fun m V => V + m;
  backward_pass.gain := fun m V => V;
  backward_pass.positive_semidefinite := fun V => bool_decide (0 <= V);
  backward_pass.regularize := fun m => m + 1
|}.

(** One local model of curvature -3, below the terminal Hessian 1. *)
Definition models : list (@backward_pass.LocalModel scalar_riccati) := [Q2Qc (-3)].
Definition terminal : @backward_pass.Hessian scalar_riccati := 1.

(** One local model of curvature 6, below the terminal Hessian -5, which is
    not positive semidefinite. *)
Definition models_above : list (@backward_pass.LocalModel scalar_riccati) := [Q2Qc 6].
Definition indefinite_terminal : @backward_pass.Hessian scalar_riccati := Q2Qc (-5).

End example.

(** * Theorems *)

(** ** Doubles *)

Module Eigen_facts.
Import Eigen.
Local Open Scope float_scope.

(** The classes of a double, read off the number it stands for. *)
Lemma is_nan_spec (x : float) :
  is_nan x = match Prim2SF x with S754_nan => true | _ => false end.
Proof.
  unfold is_nan. rewrite FloatAxioms.eqb_spec. unfold SFeqb.
  destruct (Prim2SF x) as [[] | [] | | [] m e]; try reflexivity;
    cbn [SFcompare]; now rewrite Z.compare_refl, Pos.compare_cont_refl.
Qed.

Lemma is_zero_spec (x : float) :
  is_zero x = match Prim2SF x with S754_zero _ => true | _ => false end.
Proof.
  unfold is_zero. rewrite FloatAxioms.eqb_spec.
  change (Prim2SF zero) with (S754_zero false).
  now destruct (Prim2SF x) as [[] | [] | | [] m e].
Qed.

Lemma is_infinity_spec (x : float) :
  is_infinity x = match Prim2SF x with S754_infinity _ => true | _ => false end.
Proof.
  unfold is_infinity. rewrite FloatAxioms.eqb_spec, abs_spec.
  change (Prim2SF infinity) with (S754_infinity false).
  now destruct (Prim2SF x) as [[] | [] | | [] m e].
Qed.

Lemma is_finite_spec (x : float) :
  is_finite x
  = match Prim2SF x with S754_nan | S754_infinity _ => false | _ => true end.
Proof.
  unfold is_finite. rewrite is_nan_spec, is_infinity_spec.
  now destruct (Prim2SF x).
Qed.

Lemma nan_spec (x : float) : Prim2SF x = S754_nan -> x = nan.
Proof. intros Hx. now apply Prim2SF_inj. Qed.

Lemma is_zero_finite (x : float) : is_zero x = true -> is_finite x = true.
Proof. rewrite is_zero_spec, is_finite_spec. now destruct (Prim2SF x). Qed.

Lemma is_zero_not_nan (x : float) : is_zero x = true -> is_nan x = false.
Proof. rewrite is_zero_spec, is_nan_spec. now destruct (Prim2SF x). Qed.

(** *** The same value *)

Lemma same_value_refl (x : float) : same_value x x.
Proof. now left. Qed.

Lemma same_value_sym (x y : float) : same_value x y -> same_value y x.
Proof. intros [-> | [Hx Hy]]; [now left | now right]. Qed.

Lemma same_value_trans (x y z : float) :
  same_value x y -> same_value y z -> same_value x z.
Proof.
  intros [-> | [Hx Hy]] [-> | [Hy' Hz]]; try (now left); right; split; congruence.
Qed.

Lemma same_value_is_zero (x y : float) : same_value x y -> is_zero x = is_zero y.
Proof. intros [-> | [Hx Hy]]; congruence. Qed.

Lemma same_value_is_finite (x y : float) : same_value x y -> is_finite x = is_finite y.
Proof.
  intros [-> | [Hx Hy]]; [reflexivity |]. now rewrite !is_zero_finite.
Qed.

Lemma same_value_is_nan (x y : float) : same_value x y -> is_nan x = is_nan y.
Proof.
  intros [-> | [Hx Hy]]; [reflexivity |]. now rewrite !is_zero_not_nan.
Qed.

Lemma not_same_value (x y : float) :
  Prim2SF x <> Prim2SF y -> is_zero y = false -> ~ same_value x y.
Proof.
  intros Hne Hy [-> | [_ Hz]]; [now destruct Hne | congruence].
Qed.

(** *** The product with one and with zero *)

Lemma valid_finite (s : bool) (m : positive) (e : Z) :
  valid_binary (S754_finite s m e) = true ->
  (Z.max (Z.pos (digits2_pos m) + e - 53) (-1074) = e /\ e <= 971)%Z.
Proof.
  cbn [SpecFloat.valid_binary].
  unfold bounded, canonical_mantissa, fexp, SpecFloat.emin, prec, emax.
  intros Hv. apply andb_true_iff in Hv as [H1 H2].
  apply Z.eqb_eq in H1. apply Z.leb_le in H2. split; [exact H1 | exact H2].
Qed.

Lemma shr_fexp_0 (m : positive) (e : Z) :
  Z.max (Z.pos (digits2_pos m) + e - 53) (-1074) = e ->
  shr_fexp prec emax (Z.pos m) e loc_Exact
  = ({| shr_m := Z.pos m; shr_r := false; shr_s := false |}, e).
Proof.
  intros Hc. unfold shr_fexp, fexp, SpecFloat.emin, prec, emax.
  cbn [Zdigits2 shr_record_of_loc].
  replace (Z.max _ _ - e)%Z with 0%Z by lia. reflexivity.
Qed.

(** The product of one, whose mantissa is 2^52, with a number shifts the
    mantissa of that number by 52 bits to the left, and the rounding shifts
    it back: nothing is lost. *)
Lemma SFmul_one_l (y : spec_float) :
  valid_binary y = true -> SF64mul (Prim2SF 1) y = y.
Proof.
  change (Prim2SF 1) with (S754_finite false 4503599627370496 (-52)).
  destruct y as [s | s | | s m e]; try reflexivity.
  intros Hv. apply valid_finite in Hv as [Hc He].
  unfold SF64mul, SFmul, binary_round_aux. cbn [xorb].
  set (p := Pos.mul _ m). cbv in p. subst p.
  unfold shr_fexp at 1. unfold fexp, SpecFloat.emin, prec, emax.
  cbn [Zdigits2 digits2_pos shr_record_of_loc].
  match goal with |- context [shr _ _ ?n] => replace n with 52%Z by lia end.
  cbn [shr]. set (r := SpecFloat.iter_pos _ _ _). cbv in r. subst r.
  cbn [round_nearest_even loc_of_shr_record shr_m shr_r shr_s].
  fold prec emax. rewrite shr_fexp_0 by lia. cbn [shr_m].
  unfold emax, prec.
  replace (Z.leb _ _) with true by (symmetry; apply Z.leb_le; lia).
  f_equal. lia.
Qed.

Lemma mul_1_l (v : float) : 1 * v = v.
Proof.
  apply Prim2SF_inj. rewrite mul_spec. apply SFmul_one_l, Prim2SF_valid.
Qed.

Lemma mul_0_finite (x : float) : is_finite x = true -> is_zero (0 * x) = true.
Proof.
  rewrite is_finite_spec, is_zero_spec, mul_spec.
  change (Prim2SF 0) with (S754_zero false).
  now destruct (Prim2SF x).
Qed.

Lemma mul_0_not_finite (x : float) : is_finite x = false -> 0 * x = nan.
Proof.
  rewrite is_finite_spec. intros Hx. apply nan_spec. rewrite mul_spec.
  change (Prim2SF 0) with (S754_zero false).
  now destruct (Prim2SF x).
Qed.

Lemma mul_not_finite_l (b x : float) : is_finite b = false -> is_finite (b * x) = false.
Proof.
  rewrite !is_finite_spec, mul_spec.
  now destruct (Prim2SF b), (Prim2SF x).
Qed.

Lemma mul_finite_zero (b u : float) :
  is_finite b = true -> is_zero u = true -> is_zero (b * u) = true.
Proof.
  rewrite is_finite_spec, !is_zero_spec, mul_spec.
  now destruct (Prim2SF b), (Prim2SF u).
Qed.

(** *** The sum with a zero and with NaN *)

Lemma add_nan_l (x : float) : nan + x = nan.
Proof.
  apply nan_spec. rewrite add_spec. change (Prim2SF nan) with S754_nan. reflexivity.
Qed.

Lemma add_nan_r (x : float) : x + nan = nan.
Proof.
  apply nan_spec. rewrite add_spec. change (Prim2SF nan) with S754_nan.
  now destruct (Prim2SF x).
Qed.

Lemma add_zero_l (z x : float) : is_zero z = true -> same_value (z + x) x.
Proof.
  intros Hz. unfold same_value. rewrite !is_zero_spec, add_spec.
  rewrite is_zero_spec in Hz.
  destruct (Prim2SF z) as [sz | | |] eqn:Ez; try discriminate.
  destruct (Prim2SF x) as [sx | sx | | sx m e] eqn:Ex.
  - right. now destruct sz, sx.
  - left. apply Prim2SF_inj. now rewrite add_spec, Ez, Ex.
  - left. apply Prim2SF_inj. now rewrite add_spec, Ez, Ex.
  - left. apply Prim2SF_inj. now rewrite add_spec, Ez, Ex.
Qed.

Lemma add_zero_r (x z : float) : is_zero z = true -> same_value (x + z) x.
Proof.
  intros Hz. unfold same_value. rewrite !is_zero_spec, add_spec.
  rewrite is_zero_spec in Hz.
  destruct (Prim2SF z) as [sz | | |] eqn:Ez; try discriminate.
  destruct (Prim2SF x) as [sx | sx | | sx m e] eqn:Ex.
  - right. now destruct sz, sx.
  - left. apply Prim2SF_inj. now rewrite add_spec, Ez, Ex.
  - left. apply Prim2SF_inj. now rewrite add_spec, Ez, Ex.
  - left. apply Prim2SF_inj. now rewrite add_spec, Ez, Ex.
Qed.

Lemma add_zero_zero (y z : float) :
  is_zero y = true -> is_zero z = true -> is_zero (y + z) = true.
Proof.
  intros Hy Hz. destruct (add_zero_l y z Hy) as [-> | [H _]]; [exact Hz | exact H].
Qed.

Lemma add_same_value_l (x x' y : float) :
  same_value x x' -> same_value (x + y) (x' + y).
Proof.
  intros [-> | [Hx Hx']]; [apply same_value_refl |].
  eapply same_value_trans; [apply add_zero_l, Hx |].
  apply same_value_sym, add_zero_l, Hx'.
Qed.

(** *** A rounded number is not NaN *)

Lemma iter_pos_invariant {A : Type} (P : A -> Prop) (f : A -> A) :
  (forall x, P x -> P (f x)) ->
  forall (n : positive) (x : A), P x -> P (SpecFloat.iter_pos f n x).
Proof.
  intros Hf. induction n as [n IH | n IH |]; intros x Hx; cbn [SpecFloat.iter_pos]; auto.
Qed.

Lemma shr_1_half (mrs : shr_record) :
  (0 <= shr_m mrs)%Z ->
  (2 * shr_m (shr_1 mrs) <= shr_m mrs <= 2 * shr_m (shr_1 mrs) + 1)%Z.
Proof.
  destruct mrs as [[| [p | p |] | p] r s]; cbn [shr_1 shr_m]; lia.
Qed.

Lemma shr_m_of_loc (q : Z) (l : location) : shr_m (shr_record_of_loc q l) = q.
Proof. now destruct l as [| []]. Qed.

Lemma shr_fexp_nonneg (m e : Z) (l : location) :
  (0 <= m)%Z -> (0 <= shr_m (fst (shr_fexp prec emax m e l)))%Z.
Proof.
  intros Hm. unfold shr_fexp, shr.
  destruct (fexp prec emax (Zdigits2 m + e) - e)%Z; cbn [fst];
    rewrite ?shr_m_of_loc; try exact Hm.
  apply (iter_pos_invariant (fun mrs => 0 <= shr_m mrs)%Z).
  - intros mrs Hmrs. pose proof (shr_1_half mrs Hmrs). lia.
  - now rewrite shr_m_of_loc.
Qed.

Lemma round_nearest_even_bounds (m : Z) (l : location) :
  (m <= round_nearest_even m l <= m + 1)%Z.
Proof.
  destruct l as [| []]; cbn [round_nearest_even]; try lia.
  destruct (Z.even m); lia.
Qed.

Lemma binary_round_aux_not_nan (s : bool) (m e : Z) (l : location) :
  (0 <= m)%Z -> binary_round_aux prec emax s m e l <> S754_nan.
Proof.
  intros Hm. unfold binary_round_aux.
  pose proof (shr_fexp_nonneg m e l Hm) as H1.
  destruct (shr_fexp prec emax m e l) as [mrs' e']. cbn [fst] in H1.
  pose proof (round_nearest_even_bounds (shr_m mrs') (loc_of_shr_record mrs')) as Hr.
  pose proof (shr_fexp_nonneg _ e' loc_Exact (Z.le_trans _ _ _ H1 (proj1 Hr))) as H2.
  destruct (shr_fexp prec emax _ e' loc_Exact) as [mrs'' e'']. cbn [fst] in H2.
  destruct (shr_m mrs'') as [| p | p]; [discriminate | | lia].
  destruct (e'' <=? emax - prec)%Z; discriminate.
Qed.

Lemma mul_finite_not_nan (x y : float) :
  is_finite x = true -> is_finite y = true -> is_nan (x * y) = false.
Proof.
  rewrite !is_finite_spec, is_nan_spec, mul_spec.
  destruct (Prim2SF x) as [sx | sx | | sx mx ex], (Prim2SF y) as [sy | sy | | sy my ey];
    try discriminate; try reflexivity.
  intros _ _. unfold SF64mul, SFmul.
  pose proof (binary_round_aux_not_nan (xorb sx sy) (Z.pos (mx * my)) (ex + ey) loc_Exact)
    as Hn.
  destruct (binary_round_aux _ _ _ _ _ _); try reflexivity. now destruct Hn.
Qed.

(** *** The quotient of one by a number *)

Lemma div_1_is_nan (mass : float) : is_nan (1 / mass) = is_nan mass.
Proof.
  rewrite !is_nan_spec, div_spec.
  change (Prim2SF 1) with (S754_finite false 4503599627370496 (-52)).
  destruct (Prim2SF mass) as [s | s | | s m e]; try reflexivity.
  unfold SF64div, SFdiv, SFdiv_core_binary.
  set (m' := match _ with Z.pos _ => _ | _ => _ end).
  assert (0 <= m')%Z as Hm'.
  { subst m'. destruct (_ - _ - _)%Z; try lia. apply Z.shiftl_nonneg. lia. }
  pose proof (Z.div_pos m' (Z.pos m) Hm' ltac:(lia)) as Hq.
  unfold Z.div in Hq. destruct (Z.div_eucl m' (Z.pos m)) as [q r].
  pose proof (binary_round_aux_not_nan (xorb false s) q) as Hn.
  match goal with |- context [binary_round_aux ?a ?b ?c ?d ?e ?f] =>
    specialize (Hn e f Hq); destruct (binary_round_aux a b c d e f) end;
    try reflexivity.
  now destruct Hn.
Qed.

Lemma div_1_zero (mass : float) : is_zero mass = true -> is_infinity (1 / mass) = true.
Proof.
  rewrite is_zero_spec, is_infinity_spec, div_spec.
  change (Prim2SF 1) with (S754_finite false 4503599627370496 (-52)).
  now destruct (Prim2SF mass).
Qed.

(** The number of bits of a mantissa. *)
Lemma digits2_pos_bounds (p : positive) :
  (2 ^ (Z.pos (digits2_pos p) - 1) <= Z.pos p < 2 ^ Z.pos (digits2_pos p))%Z.
Proof.
  induction p as [p IH | p IH |]; cbn [digits2_pos]; [| | cbn; lia].
  - rewrite Pos2Z.inj_succ.
    replace (Z.succ (Z.pos (digits2_pos p)) - 1)%Z with (Z.succ (Z.pos (digits2_pos p) - 1))
      by lia.
    rewrite !Z.pow_succ_r by lia. lia.
  - rewrite Pos2Z.inj_succ.
    replace (Z.succ (Z.pos (digits2_pos p)) - 1)%Z with (Z.succ (Z.pos (digits2_pos p) - 1))
      by lia.
    rewrite !Z.pow_succ_r by lia. lia.
Qed.

Lemma Zdigits2_le (q k : Z) : (0 < q < 2 ^ k)%Z -> (0 <= k)%Z -> (Zdigits2 q <= k)%Z.
Proof.
  intros [Hq Hk] H0. destruct q as [| p | p]; try lia. cbn [Zdigits2].
  pose proof (digits2_pos_bounds p) as [Hl _].
  destruct (Z.le_gt_cases (Z.pos (digits2_pos p)) k) as [Hle | Hgt]; [exact Hle |].
  assert (2 ^ k <= 2 ^ (Z.pos (digits2_pos p) - 1))%Z by (apply Z.pow_le_mono_r; lia).
  lia.
Qed.

Lemma Zdigits2_gt (q k : Z) :
  (0 < q)%Z -> (k < Zdigits2 q)%Z -> (0 <= k)%Z -> (2 ^ k <= q)%Z.
Proof.
  intros Hq Hk H0. destruct q as [| p | p]; cbn [Zdigits2] in Hk; try lia.
  pose proof (digits2_pos_bounds p) as [Hl _].
  assert (2 ^ k <= 2 ^ (Z.pos (digits2_pos p) - 1))%Z by (apply Z.pow_le_mono_r; lia).
  lia.
Qed.

Lemma Zdigits2_lt (q k : Z) :
  (0 < q)%Z -> (Zdigits2 q <= k)%Z -> (q < 2 ^ k)%Z.
Proof.
  intros Hq Hk. destruct q as [| p | p]; cbn [Zdigits2] in Hk; try lia.
  pose proof (digits2_pos_bounds p) as [_ Hu].
  assert (2 ^ Z.pos (digits2_pos p) <= 2 ^ k)%Z by (apply Z.pow_le_mono_r; lia).
  lia.
Qed.

(** A number below 2^54 whose exponent is not below the least one is
    shifted by one bit at most, to a number below 2^53 that is not zero. *)
Lemma shr_fexp_small (q e : Z) (l : location) :
  (0 < q < 2 ^ 54)%Z -> (-1074 <= e)%Z ->
  (0 < shr_m (fst (shr_fexp prec emax q e l)) < 2 ^ 53)%Z
  /\ (e <= snd (shr_fexp prec emax q e l) <= e + 1)%Z.
Proof.
  intros [Hq0 Hq] He.
  pose proof (Zdigits2_le q 54 (conj Hq0 Hq) ltac:(lia)) as Hd.
  unfold shr_fexp, fexp, SpecFloat.emin, prec, emax, shr.
  destruct (Z.max (Zdigits2 q + e - 53) (3 - 1024 - 53) - e)%Z as [| n | n] eqn:En;
    cbn [fst snd]; rewrite ?shr_m_of_loc.
  - split; [| lia]. split; [exact Hq0 |]. apply Zdigits2_lt; lia.
  - assert (n = 1%positive) as -> by lia. cbn [SpecFloat.iter_pos].
    pose proof (shr_1_half (shr_record_of_loc q l)) as Hh.
    rewrite shr_m_of_loc in Hh. specialize (Hh ltac:(lia)).
    pose proof (Zdigits2_gt q 53 Hq0 ltac:(lia) ltac:(lia)) as Hl.
    change (2 ^ 53)%Z with 9007199254740992%Z in *.
    change (2 ^ 54)%Z with 18014398509481984%Z in *.
    split; lia.
  - split; [| lia]. split; [exact Hq0 |]. apply Zdigits2_lt; lia.
Qed.

(** Such a number is rounded to a finite number that is not zero, when its
    exponent leaves room for the two shifts. *)
Lemma binary_round_aux_finite (s : bool) (q e : Z) (l : location) :
  (0 < q < 2 ^ 54)%Z -> (-1074 <= e <= 969)%Z ->
  exists m' e', binary_round_aux prec emax s q e l = S754_finite s m' e'.
Proof.
  intros Hq He. unfold binary_round_aux.
  destruct (shr_fexp_small q e l Hq ltac:(lia)) as [H1 H1e].
  destruct (shr_fexp prec emax q e l) as [mrs' e1]. cbn [fst snd] in H1, H1e.
  pose proof (round_nearest_even_bounds (shr_m mrs') (loc_of_shr_record mrs')) as Hq1.
  set (q1 := round_nearest_even (shr_m mrs') (loc_of_shr_record mrs')) in *.
  change (2 ^ 53)%Z with 9007199254740992%Z in *.
  change (2 ^ 54)%Z with 18014398509481984%Z in *.
  destruct (shr_fexp_small q1 e1 loc_Exact) as [H2 H2e].
  { change (2 ^ 54)%Z with 18014398509481984%Z. lia. }
  { lia. }
  destruct (shr_fexp prec emax q1 e1 loc_Exact) as [mrs'' e2]. cbn [fst snd] in H2, H2e.
  destruct (shr_m mrs'') as [| m' | m']; try lia.
  replace (e2 <=? emax - prec)%Z with true
    by (symmetry; apply Z.leb_le; unfold emax, prec; lia).
  now exists m', e2.
Qed.

(** The quotient of one by a normal number, whose mantissa has 53 bits: the
    mantissa 2^52 of one is shifted so that the quotient of the mantissas
    has 52 to 54 bits. *)
Lemma SFdiv_one_normal (s : bool) (m : positive) (e : Z) :
  Z.pos (digits2_pos m) = 53%Z ->
  valid_binary (S754_finite s m e) = true ->
  exists m' e', SF64div (Prim2SF 1) (S754_finite s m e) = S754_finite s m' e'.
Proof.
  intros Hd Hv. apply valid_finite in Hv as [Hc He]. rewrite Hd in Hc.
  pose proof (digits2_pos_bounds m) as Hm. rewrite Hd in Hm.
  change (2 ^ (53 - 1))%Z with 4503599627370496%Z in Hm.
  change (2 ^ 53)%Z with 9007199254740992%Z in Hm.
  change (Prim2SF 1) with (S754_finite false 4503599627370496 (-52)).
  unfold SF64div, SFdiv, SFdiv_core_binary.
  cbn [Zdigits2 xorb]. rewrite Hd.
  change (Z.pos (digits2_pos 4503599627370496)) with 53%Z.
  unfold fexp, SpecFloat.emin, prec, emax.
  set (e' := Z.min _ _).
  set (m1 := match (-52 - e - e')%Z with 0%Z => _ | Z.pos _ => _ | Z.neg _ => _ end).
  assert (-1074 <= e' <= 969 /\ Z.pos m * 1 <= m1 /\ m1 <= Z.pos m * 9007199254740992)%Z
    as (He' & Hl & Hu).
  { destruct (Z.le_gt_cases e 969) as [Hs | Hs].
    - assert (e' = -105 - e)%Z as E by (subst e'; lia).
      subst m1. replace (-52 - e - e')%Z with 53%Z by lia.
      change (Z.shiftl 4503599627370496 53) with 40564819207303340847894502572032%Z. lia.
    - assert (e' = -1074)%Z as E by (subst e'; lia).
      assert (e = 970 \/ e = 971)%Z as [-> | ->] by lia; subst m1; rewrite E.
      + change (-52 - 970 - -1074)%Z with 52%Z.
        change (Z.shiftl 4503599627370496 52) with 20282409603651670423947251286016%Z. lia.
      + change (-52 - 971 - -1074)%Z with 51%Z.
        change (Z.shiftl 4503599627370496 51) with 10141204801825835211973625643008%Z. lia. }
  clearbody m1 e'.
  pose proof (Z.div_le_lower_bound m1 (Z.pos m) 1 ltac:(lia) ltac:(lia)) as Hql.
  pose proof (Z.div_le_upper_bound m1 (Z.pos m) 9007199254740992 ltac:(lia) ltac:(lia)) as Hqu.
  unfold Z.div in Hql, Hqu. destruct (Z.div_eucl m1 (Z.pos m)) as [q r].
  apply binary_round_aux_finite; [| exact He'].
  change (2 ^ 54)%Z with 18014398509481984%Z. lia.
Qed.

Lemma div_1_normal (mass : float) :
  is_normal mass = true -> is_finite (1 / mass) = true /\ is_zero (1 / mass) = false.
Proof.
  unfold is_normal. rewrite classify_spec, is_finite_spec, is_zero_spec, div_spec.
  pose proof (Prim2SF_valid mass) as Hv.
  destruct (Prim2SF mass) as [[] | [] | | s m e]; try discriminate.
  intros Hn.
  assert (Z.pos (digits2_pos m) = 53)%Z as Hd.
  { unfold SF64classify, SFclassify, prec in Hn.
    destruct (Z.pos (digits2_pos m) =? 53)%Z eqn:E; [now apply Z.eqb_eq in E |].
    now destruct s. }
  destruct (SFdiv_one_normal s m e Hd Hv) as (m' & e' & ->). now split.
Qed.

(** *** The opposite *)

Lemma binary_round_aux_opp (s : bool) (m e : Z) (l : location) :
  binary_round_aux prec emax (negb s) m e l = SFopp (binary_round_aux prec emax s m e l).
Proof.
  unfold binary_round_aux.
  destruct (shr_fexp prec emax m e l) as [mrs' e'].
  destruct (shr_fexp prec emax _ e' loc_Exact) as [mrs'' e''].
  destruct (shr_m mrs''); try reflexivity.
  now destruct (e'' <=? emax - prec)%Z.
Qed.

Lemma mul_opp_r (x y : float) : x * - y = - (x * y).
Proof.
  apply Prim2SF_inj. rewrite opp_spec, !mul_spec, opp_spec.
  destruct (Prim2SF x) as [sx | sx | | sx mx ex], (Prim2SF y) as [sy | sy | | sy my ey];
    cbn [SF64mul SFmul SFopp]; try reflexivity; try (now destruct sx, sy).
  replace (xorb sx (negb sy)) with (negb (xorb sx sy)) by now destruct sx, sy.
  apply binary_round_aux_opp.
Qed.

Lemma mul_opp_l (x y : float) : - x * y = - (x * y).
Proof.
  apply Prim2SF_inj. rewrite opp_spec, !mul_spec, opp_spec.
  destruct (Prim2SF x) as [sx | sx | | sx mx ex], (Prim2SF y) as [sy | sy | | sy my ey];
    cbn [SF64mul SFmul SFopp]; try reflexivity; try (now destruct sx, sy).
  replace (xorb (negb sx) sy) with (negb (xorb sx sy)) by now destruct sx, sy.
  apply binary_round_aux_opp.
Qed.

Lemma div_1_opp (mass : float) : 1 / - mass = - (1 / mass).
Proof.
  apply Prim2SF_inj. rewrite opp_spec, !div_spec, opp_spec.
  change (Prim2SF 1) with (S754_finite false 4503599627370496 (-52)).
  destruct (Prim2SF mass) as [s | s | | s m e]; cbn [SF64div SFdiv SFopp xorb];
    try reflexivity.
  destruct (SFdiv_core_binary prec emax 4503599627370496 (-52) (Z.pos m) e) as [[mz ez] lz].
  apply binary_round_aux_opp.
Qed.

Lemma opp_involutive (x : float) : - - x = x.
Proof.
  apply Prim2SF_inj. rewrite !opp_spec. destruct (Prim2SF x); cbn [SFopp];
    now rewrite ?negb_involutive.
Qed.

Lemma is_zero_opp (x : float) : is_zero (- x) = is_zero x.
Proof. rewrite !is_zero_spec, opp_spec. now destruct (Prim2SF x). Qed.

Lemma is_finite_opp (x : float) : is_finite (- x) = is_finite x.
Proof. rewrite !is_finite_spec, opp_spec. now destruct (Prim2SF x). Qed.

Lemma same_value_opp (x y : float) : same_value x y -> same_value (- x) (- y).
Proof.
  intros [-> | [Hx Hy]]; [now left |]. right. now rewrite !is_zero_opp.
Qed.

End Eigen_facts.

(** ** The double integrator *)

Module double_integrator_facts.
Import Eigen double_integrator Eigen_facts.
Local Open Scope float_scope.

(** The two coefficients of the state derivative, as the code computes
    them. *)
Lemma computeFlowMap_coefficients (mass t position velocity u : scalar_t) :
  computeFlowMap (new mass) t (position, velocity) u
  = (0 * position + 1 * velocity + 0 * u,
     0 * position + 0 * velocity + 1 / mass * u).
Proof. reflexivity. Qed.

(** The first coefficient is the velocity, once the products with the
    zeros of [A_] and [B_] are zeros. *)
Lemma computeFlowMap_fst (mass t position velocity u : scalar_t) :
  is_finite position = true -> is_finite u = true ->
  same_value (fst (computeFlowMap (new mass) t (position, velocity) u)) velocity.
Proof.
  intros Hp Hu. rewrite computeFlowMap_coefficients. cbn [fst]. rewrite mul_1_l.
  eapply same_value_trans; [apply add_zero_r, mul_0_finite, Hu |].
  apply add_zero_l, mul_0_finite, Hp.
Qed.

(** The second coefficient is the product of [1.0 / mass] with the input. *)
Lemma computeFlowMap_snd (mass t position velocity u : scalar_t) :
  is_finite position = true -> is_finite velocity = true ->
  same_value (snd (computeFlowMap (new mass) t (position, velocity) u)) (1 / mass * u).
Proof.
  intros Hp Hv. rewrite computeFlowMap_coefficients. cbn [snd].
  apply add_zero_l, add_zero_zero; apply mul_0_finite; assumption.
Qed.

(** Where the state derivative is finite. *)
Lemma computeFlowMap_is_finite (mass t position velocity u : scalar_t) :
  is_finite (fst (computeFlowMap (new mass) t (position, velocity) u))
  = is_finite position && is_finite velocity && is_finite u
  /\ is_finite (snd (computeFlowMap (new mass) t (position, velocity) u))
     = is_finite position && is_finite velocity && is_finite (1 / mass * u).
Proof.
  destruct (is_finite position) eqn:Hp.
  - split.
    + destruct (is_finite u) eqn:Hu.
      * rewrite (same_value_is_finite _ _ (computeFlowMap_fst mass t _ velocity _ Hp Hu)).
        now destruct (is_finite velocity).
      * rewrite computeFlowMap_coefficients. cbn [fst].
        rewrite (mul_0_not_finite u Hu), add_nan_r. now destruct (is_finite velocity).
    + destruct (is_finite velocity) eqn:Hv.
      * now rewrite (same_value_is_finite _ _ (computeFlowMap_snd mass t _ _ u Hp Hv)).
      * rewrite computeFlowMap_coefficients. cbn [snd].
        now rewrite (mul_0_not_finite velocity Hv), add_nan_r, add_nan_l.
  - rewrite computeFlowMap_coefficients. cbn [fst snd].
    now rewrite (mul_0_not_finite position Hp), !add_nan_l.
Qed.

(** C1, as the claim states it, fails on the code.  For the mass 49 and the
    input 49 the quotient [u / m] is 1, and [computeFlowMap] returns
    0.99999999999999989 (the number below 1), the product of the rounded
    [1.0 / 49] with 49; the two are not equal for [==] either.  For a
    position that is infinite the state derivative is NaN in both
    coefficients, whatever the velocity and the input are. *)
Lemma computeFlowMap_not_the_quotient :
  let dxdt := computeFlowMap (new 49) 0 (1, 3) 49 in
  dxdt = (3, 0x1.fffffffffffffp-1)
  /\ 49 / 49 = 1
  /\ ~ same_value (snd dxdt) (49 / 49)
  /\ (snd dxdt =? 49 / 49) = false
  /\ computeFlowMap (new 2) 0 (infinity, 3) 4 = (nan, nan).
Proof.
  cbv zeta. split; [reflexivity |]. split; [reflexivity |].
  split; [| split; reflexivity].
  apply not_same_value; [| reflexivity]. vm_compute. discriminate.
Qed.

(** C1, amended.  For every time, every mass, and every state [position,
    velocity] and input [u] that are finite, [computeFlowMap] returns
    [A_ * x + B_ * u] with [A_ = ((0, 1), (0, 0))] and [B_ = (0, 1.0 / mass)]:
    the velocity, and the product of the rounded quotient [1.0 / mass] with
    [u], rounded; each up to the sign of a zero.  (The product is the
    quotient [u / mass] up to these two roundings.) *)
Theorem computeFlowMap_double_integrator (mass t position velocity u : scalar_t) :
  is_finite position = true -> is_finite velocity = true -> is_finite u = true ->
  let dxdt := computeFlowMap (new mass) t (position, velocity) u in
  A_ (new mass) = ((0, 1), (0, 0))
  /\ B_ (new mass) = (0, 1 / mass)
  /\ same_value (fst dxdt) velocity
  /\ same_value (snd dxdt) (1 / mass * u).
Proof.
  intros Hp Hv Hu dxdt. split; [reflexivity |]. split; [reflexivity |].
  split; [now apply computeFlowMap_fst | now apply computeFlowMap_snd].
Qed.

Lemma computeFlowMap_double_integrator_witness :
  same_value (fst (computeFlowMap (new 2) 0 (1, 3) 4)) 3
  /\ same_value (snd (computeFlowMap (new 2) 0 (1, 3) 4)) (1 / 2 * 4)
  /\ computeFlowMap (new 2) 0 (1, 3) 4 = (3, 2).
Proof.
  destruct (computeFlowMap_double_integrator 2 0 1 3 4) as (_ & _ & H1 & H2);
    try reflexivity.
  split; [exact H1 | split; [exact H2 | reflexivity]].
Defined.

(** C9, as the claim states it, fails on the code: a mass that is not zero
    does not keep the results defined.  The least positive double, 2^-1074,
    is not zero and is no NaN; [1.0 / mass] overflows to infinity, the
    object that is constructed is the one constructed for the mass 0, and
    the second coefficient of the state derivative is infinite. *)
Lemma nonzero_mass_overflow :
  let mass := 0x1p-1074 in
  is_zero mass = false /\ is_nan mass = false /\ (0 <? mass) = true
  /\ new mass = new 0
  /\ B_ (new mass) = (0, infinity)
  /\ computeFlowMap (new mass) 0 (1, 3) 4 = (3, infinity).
Proof. cbv zeta. repeat split; reflexivity. Qed.

(** C9, amended.  The constructor computes [1.0 / mass] with no guard.  For
    a mass that is zero the quotient is an infinity.  For every mass whose
    quotient is not finite (a zero, a NaN, or a mass so small that the
    quotient overflows), the second coefficient of every state derivative
    is infinite or NaN.  For a normal mass the quotient is finite and not
    zero; and for every mass whose quotient is finite, the state derivative
    of a finite state and input has a finite first coefficient and a second
    coefficient that is the product of the quotient with the input and no
    NaN. *)
Theorem constructor_requires_normal_mass (mass : scalar_t) :
  B_ (new mass) = (0, 1 / mass)
  /\ (is_zero mass = true -> is_infinity (1 / mass) = true)
  /\ (is_normal mass = true -> is_finite (1 / mass) = true /\ is_zero (1 / mass) = false)
  /\ (is_finite (1 / mass) = false ->
      forall (t : scalar_t) (state : state_vector_t) (u : input_vector_t),
        is_finite (snd (computeFlowMap (new mass) t state u)) = false)
  /\ (is_finite (1 / mass) = true ->
      forall t position velocity u : scalar_t,
        is_finite position = true -> is_finite velocity = true -> is_finite u = true ->
        let dxdt := computeFlowMap (new mass) t (position, velocity) u in
        is_finite (fst dxdt) = true
        /\ is_nan (snd dxdt) = false
        /\ same_value (snd dxdt) (1 / mass * u)).
Proof.
  split; [reflexivity |]. split; [apply div_1_zero |]. split; [apply div_1_normal |].
  split.
  - intros Hb t [position velocity] u.
    destruct (computeFlowMap_is_finite mass t position velocity u) as [_ ->].
    rewrite (mul_not_finite_l _ u Hb). now rewrite andb_false_r.
  - intros Hb t position velocity u Hp Hv Hu dxdt. subst dxdt.
    destruct (computeFlowMap_is_finite mass t position velocity u) as [H1 _].
    pose proof (computeFlowMap_snd mass t position velocity u Hp Hv) as H2.
    split; [now rewrite H1, Hp, Hv, Hu |].
    split; [| exact H2].
    rewrite (same_value_is_nan _ _ H2). now apply mul_finite_not_nan.
Qed.

(** The statement for the masses 0, where no state derivative has a finite
    second coefficient, and 2, a normal number. *)
Lemma constructor_requires_normal_mass_witness :
  is_infinity (1 / 0) = true
  /\ is_finite (snd (computeFlowMap (new 0) 0 (1, 3) 4)) = false
  /\ is_finite (1 / 2) = true
  /\ is_nan (snd (computeFlowMap (new 2) 0 (1, 3) 4)) = false.
Proof.
  destruct (constructor_requires_normal_mass 0) as (_ & H0 & _ & Hnot & _).
  destruct (constructor_requires_normal_mass 2) as (_ & _ & H2 & _ & Hfin).
  split; [apply H0; reflexivity |].
  split; [apply Hnot; reflexivity |].
  split; [apply H2; reflexivity |].
  apply (Hfin eq_refl 0 1 3 4); reflexivity.
Defined.

(** X1.  The signs.  For a finite state and input, the state derivative of
    the opposite state and input is the opposite state derivative, and the
    state derivative for the opposite mass and the opposite input is the
    state derivative itself; each up to the sign of a zero.  (Of the
    linearity of the dynamics this is what the rounding leaves: the state
    derivative of a sum is not the sum of the state derivatives.) *)
Theorem computeFlowMap_signs (mass t position velocity u : scalar_t) :
  is_finite position = true -> is_finite velocity = true -> is_finite u = true ->
  let dxdt := computeFlowMap (new mass) t (position, velocity) u in
  let opposite := computeFlowMap (new mass) t (- position, - velocity) (- u) in
  let mirrored := computeFlowMap (new (- mass)) t (position, velocity) (- u) in
  same_value (fst opposite) (- fst dxdt)
  /\ same_value (snd opposite) (- snd dxdt)
  /\ same_value (fst mirrored) (fst dxdt)
  /\ same_value (snd mirrored) (snd dxdt).
Proof.
  intros Hp Hv Hu dxdt opposite mirrored. subst dxdt opposite mirrored.
  assert (is_finite (- position) = true) as Hp' by now rewrite is_finite_opp.
  assert (is_finite (- velocity) = true) as Hv' by now rewrite is_finite_opp.
  assert (is_finite (- u) = true) as Hu' by now rewrite is_finite_opp.
  pose proof (computeFlowMap_fst mass t position velocity u Hp Hu) as H1.
  pose proof (computeFlowMap_snd mass t position velocity u Hp Hv) as H2.
  split; [| split; [| split]].
  - eapply same_value_trans; [apply computeFlowMap_fst; assumption |].
    apply same_value_sym, same_value_opp, H1.
  - eapply same_value_trans; [apply computeFlowMap_snd; assumption |].
    rewrite mul_opp_r. apply same_value_sym, same_value_opp, H2.
  - eapply same_value_trans; [apply computeFlowMap_fst; assumption |].
    apply same_value_sym, H1.
  - eapply same_value_trans; [apply computeFlowMap_snd; assumption |].
    rewrite div_1_opp, mul_opp_r, mul_opp_l, opp_involutive.
    apply same_value_sym, H2.
Qed.

Lemma computeFlowMap_signs_witness :
  same_value (snd (computeFlowMap (new 49) 0 (- (1), - (3)) (- (49))))
             (- snd (computeFlowMap (new 49) 0 (1, 3) 49))
  /\ same_value (snd (computeFlowMap (new (- (49))) 0 (1, 3) (- (49))))
                (snd (computeFlowMap (new 49) 0 (1, 3) 49)).
Proof.
  destruct (computeFlowMap_signs 49 0 1 3 49) as (_ & H1 & _ & H2); try reflexivity.
  split; [exact H1 | exact H2].
Defined.

(** X2.  The equilibria.  For a finite state and input, the first
    coefficient of the state derivative is zero exactly when the velocity
    is, and the second exactly when the product of [1.0 / mass] with the
    input is; that product is zero for the input zero when [1.0 / mass] is
    finite.  (It is also zero for an input that is not zero when it
    underflows, as for the mass 2^300 and the input 2^-1000.) *)
Theorem computeFlowMap_equilibrium (mass t position velocity u : scalar_t) :
  is_finite position = true -> is_finite velocity = true -> is_finite u = true ->
  let dxdt := computeFlowMap (new mass) t (position, velocity) u in
  is_zero (fst dxdt) = is_zero velocity
  /\ is_zero (snd dxdt) = is_zero (1 / mass * u)
  /\ (is_finite (1 / mass) = true -> is_zero u = true -> is_zero (snd dxdt) = true).
Proof.
  intros Hp Hv Hu dxdt. subst dxdt.
  pose proof (same_value_is_zero _ _ (computeFlowMap_fst mass t position velocity u Hp Hu))
    as H1.
  pose proof (same_value_is_zero _ _ (computeFlowMap_snd mass t position velocity u Hp Hv))
    as H2.
  split; [exact H1 |]. split; [exact H2 |].
  intros Hb Hz. rewrite H2. now apply mul_finite_zero.
Qed.

Lemma computeFlowMap_equilibrium_witness :
  is_zero (fst (computeFlowMap (new 2) 0 (7, 0) 0)) = true
  /\ is_zero (snd (computeFlowMap (new 2) 0 (7, 0) 0)) = true
  /\ is_zero (snd (computeFlowMap (new 0x1p300) 0 (7, 0) 0x1p-1000)) = true.
Proof.
  destruct (computeFlowMap_equilibrium 2 0 7 0 0) as (H1 & _ & H2); try reflexivity.
  destruct (computeFlowMap_equilibrium 0x1p300 0 7 0 0x1p-1000) as (_ & H3 & _);
    try reflexivity.
  split; [exact H1 |]. split; [apply H2; reflexivity |]. exact H3.
Defined.

(** X4.  [computeFlowMap] depends neither on its time argument nor on the
    position: for every mass, velocity and input (finite or not), any two
    times and any two finite positions, the two state derivatives are the
    same up to the sign of a zero, and they are equal when only the times
    differ, also for a copy made by [clone].  (The sign of a zero can
    differ: the product of the coefficient 0.0 of [A_] with the position is
    a zero of the sign of the position.) *)
Theorem computeFlowMap_invariant (mass t t' position position' velocity u : scalar_t) :
  is_finite position = true -> is_finite position' = true ->
  let dxdt := computeFlowMap (new mass) t (position, velocity) u in
  let dxdt' := computeFlowMap (new mass) t' (position', velocity) u in
  computeFlowMap (clone (new mass)) t' (position, velocity) u = dxdt
  /\ same_value (fst dxdt) (fst dxdt')
  /\ same_value (snd dxdt) (snd dxdt').
Proof.
  intros Hp Hp' dxdt dxdt'. split; [reflexivity |].
  subst dxdt dxdt'. rewrite !computeFlowMap_coefficients. cbn [fst snd].
  assert (same_value (0 * position) (0 * position')) as Hz
    by (right; split; apply mul_0_finite; assumption).
  split; apply add_same_value_l, add_same_value_l, Hz.
Qed.

Lemma computeFlowMap_invariant_witness :
  (computeFlowMap (clone (new 2)) 7 (1, 3) 4 = computeFlowMap (new 2) 0 (1, 3) 4
   /\ same_value (fst (computeFlowMap (new 2) 0 (1, 3) 4))
                 (fst (computeFlowMap (new 2) 7 (- (5), 3) 4))
   /\ same_value (snd (computeFlowMap (new 2) 0 (1, 3) 4))
                 (snd (computeFlowMap (new 2) 7 (- (5), 3) 4)))
  /\ computeFlowMap (new 2) 0 (1, - 0) (- (1)) = (0, - 0.5)
  /\ computeFlowMap (new 2) 0 (- (1), - 0) (- (1)) = (- 0, - 0.5).
Proof.
  split; [| split; reflexivity].
  apply (computeFlowMap_invariant 2 0 7 1 (- (5)) 3 4); reflexivity.
Defined.

(** X6.  Where the state derivative is finite.  Its first coefficient is
    finite exactly when the position, the velocity and the input are; its
    second exactly when the position and the velocity are and the product
    of [1.0 / mass] with the input is.  A position that is infinite or NaN
    leaves NaN in both coefficients, although the position is multiplied
    by zero only. *)
Theorem computeFlowMap_finite (mass t position velocity u : scalar_t) :
  let dxdt := computeFlowMap (new mass) t (position, velocity) u in
  is_finite (fst dxdt) = is_finite position && is_finite velocity && is_finite u
  /\ is_finite (snd dxdt)
     = is_finite position && is_finite velocity && is_finite (1 / mass * u)
  /\ (is_finite position = false -> dxdt = (nan, nan)).
Proof.
  cbv zeta. destruct (computeFlowMap_is_finite mass t position velocity u) as [H1 H2].
  split; [exact H1 |]. split; [exact H2 |].
  intros Hp. rewrite computeFlowMap_coefficients.
  now rewrite (mul_0_not_finite position Hp), !add_nan_l.
Qed.

End double_integrator_facts.

(** ** The diagnostic stream and the outcome of a call *)

Module io_facts.
Import io.

(** The laws of sequencing. *)
Lemma ret_bind {A B} (a : A) (f : A -> io B) : bind (ret a) f = f a.
Proof. unfold bind, ret. now destruct (f a). Qed.

Lemma bind_ret {A} (m : io A) : bind m ret = m.
Proof.
  destruct m as [[a | e] out]; [| reflexivity].
  unfold bind, ret. now rewrite app_nil_r.
Qed.

Lemma bind_bind {A B C} (m : io A) (f : A -> io B) (g : B -> io C) :
  bind (bind m f) g = bind m (fun a => bind (f a) g).
Proof.
  destruct m as [[a | e] out]; [| reflexivity].
  unfold bind. destruct (f a) as [[b | e] out']; [| reflexivity].
  destruct (g b) as [r out'']. now rewrite app_assoc.
Qed.

Lemma bind_Ok {A B} (m : io A) (f : A -> io B) (b : B) (out : list string) :
  bind m f = (Ok b, out) ->
  exists a o1 o2, m = (Ok a, o1) /\ f a = (Ok b, o2) /\ out = o1 ++ o2.
Proof.
  unfold bind. destruct m as [[a | e] o1]; [| discriminate].
  destruct (f a) as [r o2] eqn:E. intros [= -> <-]. eauto 6.
Qed.

Lemma ret_Ok {A} (a b : A) (out : list string) :
  ret a = (Ok b, out) -> a = b /\ out = [].
Proof. now intros [= -> <-]. Qed.

(** The outcome of a sequence is the outcome of its second part, unless the
    first part throws. *)
Lemma fst_bind {A B} (m : io A) (f : A -> io B) :
  fst (bind m f) = match fst m with Ok a => fst (f a) | Throw e => Throw e end.
Proof.
  destruct m as [[a | e] o]; [| reflexivity].
  unfold bind; cbn. destruct (f a); reflexivity.
Qed.

Lemma fst_bind_ext {A B} (m m' : io A) (f f' : A -> io B) :
  fst m = fst m' -> (forall a, fst (f a) = fst (f' a)) ->
  fst (bind m f) = fst (bind m' f').
Proof.
  intros Hm Hf. rewrite !fst_bind, Hm. destruct (fst m'); [apply Hf | reflexivity].
Qed.

Lemma returns_ret {A} (a : A) (P : A -> Prop) : P a -> returns (ret a) P.
Proof. intros HP. exists a, []. now split. Qed.

(** A sequence returns when its first part does and its second part does
    after it. *)
Lemma returns_bind {A B} (m : io A) (f : A -> io B) (Q : A -> Prop) (P : B -> Prop) :
  returns m Q -> (forall a, Q a -> returns (f a) P) -> returns (bind m f) P.
Proof.
  intros (a & o1 & -> & HQ) Hf. destruct (Hf a HQ) as (b & o2 & E & HP).
  exists b, (o1 ++ o2). unfold bind. rewrite E. now split.
Qed.

Lemma returns_print_if (verbose : bool) (lines : list string) :
  returns (print_if verbose lines) (fun _ => True).
Proof. exists tt, (if verbose then lines else []). now split. Qed.

(** What a sequence prints: what its first part prints, and then what its
    second part prints if the first part returns. *)
Lemma snd_bind {A B} (m : io A) (f : A -> io B) :
  snd (bind m f)
  = snd m ++ match fst m with Ok a => snd (f a) | Throw _ => [] end.
Proof.
  destruct m as [[a | e] o]; unfold bind; cbn.
  - destruct (f a); reflexivity.
  - now rewrite app_nil_r.
Qed.

Lemma silent_bind {A B} (m : io A) (f : A -> io B) :
  snd m = [] -> (forall a, snd (f a) = []) -> snd (bind m f) = [].
Proof.
  intros Hm Hf. rewrite snd_bind, Hm. destruct (fst m); [apply Hf | reflexivity].
Qed.

End io_facts.

(** ** [loadPtreeValue] *)

Module loadData_facts.
Import io loadData io_facts.

Lemma loadPtreeValue_Ok {T} `{Translator T}
    (pt : ptree) (value : T) (name : string) (verbose : bool) (v : T) (out : list string) :
  loadPtreeValue pt value name verbose = (Ok v, out) -> loaded pt value name v.
Proof.
  unfold loadPtreeValue, loaded. destruct (pt !! name) as [d |].
  - destruct (translate d) as [x |]; [| discriminate].
    intros (_ & ? & ? & _ & E & _)%bind_Ok. apply ret_Ok in E as [-> _]. reflexivity.
  - intros (_ & ? & ? & _ & E & _)%bind_Ok. apply ret_Ok in E as [-> _]. reflexivity.
Qed.

(** The value read does not depend on [verbose]. *)
Lemma loadPtreeValue_verbose {T} `{Translator T}
    (pt : ptree) (value : T) (name : string) (verbose verbose' : bool) :
  fst (loadPtreeValue pt value name verbose) = fst (loadPtreeValue pt value name verbose').
Proof.
  unfold loadPtreeValue. destruct (pt !! name) as [d |]; [destruct (translate d) |];
    reflexivity.
Qed.

(** [loadPtreeValue] returns when the node, if the tree has it, holds data
    that can be read at the type of the value; it then returns what [loaded]
    says. *)
Lemma loadPtreeValue_returns {T} `{Translator T}
    (pt : ptree) (value : T) (name : string) (verbose : bool) :
  (forall d, pt !! name = Some d -> is_Some (translate d)) ->
  returns (loadPtreeValue pt value name verbose) (loaded pt value name).
Proof.
  intros Hd. unfold loadPtreeValue, loaded. destruct (pt !! name) as [d |].
  - destruct (Hd d eq_refl) as [v ->].
    eapply returns_bind; [apply returns_print_if | intros _ _; now apply returns_ret].
  - eapply returns_bind; [apply returns_print_if | intros _ _; now apply returns_ret].
Qed.

(** Without [verbose], [loadPtreeValue] prints nothing. *)
Lemma loadPtreeValue_silent {T} `{Translator T}
    (pt : ptree) (value : T) (name : string) :
  snd (loadPtreeValue pt value name false) = [].
Proof.
  unfold loadPtreeValue. destruct (pt !! name) as [d |]; [destruct (translate d) |];
    reflexivity.
Qed.

(** Data that is read at the type of a member is data of that type. *)
Lemma translate_size_t_Some (d : pdata) (n : N) : translate d = Some n -> d = PSize n.
Proof. destruct d; intros [= E]; now rewrite E. Qed.

Lemma translate_int_Some (d : pdata) (z : Z) : translate d = Some z -> d = PInt z.
Proof. destruct d; intros [= E]; now rewrite E. Qed.

Lemma translate_double_Some (d : pdata) (q : Qc) : translate d = Some q -> d = PDouble q.
Proof. destruct d; intros [= E]; now rewrite E. Qed.

Lemma translate_bool_Some (d : pdata) (b : bool) : translate d = Some b -> d = PBool b.
Proof. destruct d; intros [= E]; now rewrite E. Qed.

Lemma translate_string_Some (d : pdata) (s : string) : translate d = Some s -> d = PString s.
Proof. destruct d; intros [= E]; now rewrite E. Qed.

(** Data of the type of a member can be read at the type of the member. *)
Lemma typed_size_t (d : pdata) (n : N) :
  type_of d = type_of (PSize n) -> is_Some (translate (T := N) d).
Proof. destruct d; try discriminate. intros _. now eexists. Qed.

Lemma typed_int (d : pdata) (z : Z) :
  type_of d = type_of (PInt z) -> is_Some (translate (T := Z) d).
Proof. destruct d; try discriminate. intros _. now eexists. Qed.

Lemma typed_double (d : pdata) (q : Qc) :
  type_of d = type_of (PDouble q) -> is_Some (translate (T := Qc) d).
Proof. destruct d; try discriminate. intros _. now eexists. Qed.

Lemma typed_bool (d : pdata) (b : bool) :
  type_of d = type_of (PBool b) -> is_Some (translate (T := bool) d).
Proof. destruct d; try discriminate. intros _. now eexists. Qed.

End loadData_facts.

(** ** [DDP_Settings::loadSettings] *)

Module ddp_facts.
Import io loadData ddp io_facts loadData_facts.

Ltac bind_inv H :=
  let a := fresh "v" in
  let o1 := fresh "o" in
  let o2 := fresh "o" in
  let L := fresh "L" in
  let E := fresh "E" in
  apply bind_Ok in H; destruct H as (a & o1 & o2 & L & H & E); cbv beta in H.

Section load.
Context `{Strategy_Settings}.

(** What a call of [loadSettings] that returns has done: every option is
    loaded into its member by [loadPtreeValue], the strategy is the one named
    by the option [strategy] (or, without that option, by the strategy the
    object had), and the block of that strategy is loaded by the
    [loadSettings] of its structure while the other block is not touched. *)
Lemma loadSettings_Ok (self s : DDP_Settings) (pt : ptree) (fieldName : string)
    (verbose : bool) (out : list string) :
  loadSettings self pt fieldName verbose = (Ok s, out) ->
  (loaded pt (nThreads_ self) (fieldName +:+ ".nThreads") (nThreads_ s)
   /\ loaded pt (threadPriority_ self) (fieldName +:+ ".threadPriority") (threadPriority_ s)
   /\ loaded pt (maxNumIterations_ self) (fieldName +:+ ".maxNumIterations") (maxNumIterations_ s)
   /\ loaded pt (minRelCost_ self) (fieldName +:+ ".minRelCost") (minRelCost_ s)
   /\ loaded pt (stateConstraintPenaltyCoeff_ self) (fieldName +:+ ".stateConstraintPenaltyCoeff") (stateConstraintPenaltyCoeff_ s)
   /\ loaded pt (stateConstraintPenaltyBase_ self) (fieldName +:+ ".stateConstraintPenaltyBase") (stateConstraintPenaltyBase_ s)
   /\ loaded pt (inequalityConstraintMu_ self) (fieldName +:+ ".inequalityConstraintMu") (inequalityConstraintMu_ s)
   /\ loaded pt (inequalityConstraintDelta_ self) (fieldName +:+ ".inequalityConstraintDelta") (inequalityConstraintDelta_ s)
   /\ loaded pt (meritFunctionRho_ self) (fieldName +:+ ".meritFunctionRho") (meritFunctionRho_ s)
   /\ loaded pt (constraintStepSize_ self) (fieldName +:+ ".constraintStepSize") (constraintStepSize_ s)
   /\ loaded pt (displayInfo_ self) (fieldName +:+ ".displayInfo") (displayInfo_ s)
   /\ loaded pt (displayShortSummary_ self) (fieldName +:+ ".displayShortSummary") (displayShortSummary_ s)
   /\ loaded pt (absTolODE_ self) (fieldName +:+ ".AbsTolODE") (absTolODE_ s)
   /\ loaded pt (relTolODE_ self) (fieldName +:+ ".RelTolODE") (relTolODE_ s)
   /\ loaded pt (maxNumStepsPerSecond_ self) (fieldName +:+ ".maxNumStepsPerSecond") (maxNumStepsPerSecond_ s)
   /\ loaded pt (minTimeStep_ self) (fieldName +:+ ".minTimeStep") (minTimeStep_ s)
   /\ loaded pt (simulationIsConstrained_ self) (fieldName +:+ ".simulationIsConstrained") (simulationIsConstrained_ s)
   /\ loaded pt (noStateConstraints_ self) (fieldName +:+ ".noStateConstraints") (noStateConstraints_ s)
   /\ loaded pt (minAbsConstraint1ISE_ self) (fieldName +:+ ".minAbsConstraint1ISE") (minAbsConstraint1ISE_ s)
   /\ loaded pt (minRelConstraint1ISE_ self) (fieldName +:+ ".minRelConstraint1ISE") (minRelConstraint1ISE_ s)
   /\ loaded pt (checkNumericalStability_ self) (fieldName +:+ ".checkNumericalStability") (checkNumericalStability_ s)
   /\ loaded pt (useRiccatiSolver_ self) (fieldName +:+ ".useRiccatiSolver") (useRiccatiSolver_ s)
   /\ loaded pt (useFeedbackPolicy_ self) (fieldName +:+ ".useFeedbackPolicy") (useFeedbackPolicy_ s)
   /\ loaded pt (debugPrintRollout_ self) (fieldName +:+ ".debugPrintRollout") (debugPrintRollout_ s)
   /\ loaded pt (debugCaching_ self) (fieldName +:+ ".debugCaching") (debugCaching_ s))
  /\ (exists strategyName,
        loaded pt (toString (strategy_ self)) (fieldName +:+ ".strategy") strategyName
        /\ fromString strategyName = Ok (strategy_ s))
  /\ match strategy_ s with
     | LINE_SEARCH =>
         (exists o, Line_Search_loadSettings (lineSearch_ self) pt
                      (fieldName +:+ ".lineSearch") verbose = (Ok (lineSearch_ s), o))
         /\ trustRegion_ s = trustRegion_ self
     | TRUST_REGION =>
         (exists o, Trust_Region_loadSettings (trustRegion_ self) pt
                      (fieldName +:+ ".trustRegion") verbose = (Ok (trustRegion_ s), o))
         /\ lineSearch_ s = lineSearch_ self
     end.
Proof.
  unfold loadSettings. intros Hl. cbv zeta in Hl.
  do 30 bind_inv Hl.
  apply ret_Ok in Hl as [<- _]; cbn.
  repeat match goal with
         | L : loadPtreeValue _ _ _ _ = (Ok _, _) |- _ => apply loadPtreeValue_Ok in L
         end.
  match goal with
  | L : of_result (fromString ?name) = (Ok ?strategy, _) |- _ =>
      assert (fromString name = Ok strategy) by (now injection L); clear L
  end.
  split; [repeat split; assumption | split; [eauto |]].
  match goal with
  | L : match ?strategy with LINE_SEARCH => _ | TRUST_REGION => _ end = (Ok _, _) |- _ =>
      destruct strategy; bind_inv L; apply ret_Ok in L as [<- _]; cbn; eauto
  end.
Qed.

(** What [loaded] says of a member, as data of the file. *)
Ltac option_case L lookup_lemma :=
  unfold loaded in L; destruct (_ !! _) as [d |];
  [apply lookup_lemma in L; now rewrite L | now rewrite L].

(** C2.  A default constructed [DDP_Settings] loads a file.  Then every
    option that the file does not have below [fieldName] leaves its member
    at the default value (15 for [maxNumIterations_], 1e-3 for
    [minRelCost_], 1 for [nThreads_], [true] for [useRiccatiSolver_],
    [LINE_SEARCH] for [strategy_], and so on), and every option that the
    file has sets its member to the data of that option alone, whatever the
    other options of the file are.  The name of a strategy converts back to
    the strategy. *)
Theorem loadSettings_defaults_and_overrides
    (file : ptree) (fieldName : string) (verbose : bool)
    (s : DDP_Settings) (out : list string) :
  (forall strategy, fromString (toString strategy) = Ok strategy) ->
  loadSettings DDP_Settings_default file fieldName verbose = (Ok s, out) ->
  (forall o : option_name,
     match file !! (fieldName +:+ option_key o) with
     | None => member o s = member o DDP_Settings_default
     | Some d => member o s = d
     end)
  /\ match file !! (fieldName +:+ ".strategy") with
     | None => strategy_ s = LINE_SEARCH
     | Some d => exists name, d = PString name /\ fromString name = Ok (strategy_ s)
     end
  /\ (file !! (fieldName +:+ ".maxNumIterations") = None -> maxNumIterations_ s = 15%N)
  /\ (file !! (fieldName +:+ ".minRelCost") = None -> minRelCost_ s = Q2Qc (1 # 1000))
  /\ (file !! (fieldName +:+ ".nThreads") = None -> nThreads_ s = 1%N)
  /\ (file !! (fieldName +:+ ".useRiccatiSolver") = None -> useRiccatiSolver_ s = true).
Proof.
  intros Hname Hload.
  destruct (loadSettings_Ok _ _ _ _ _ _ Hload)
    as ((L0 & L1 & L2 & L3 & L4 & L5 & L6 & L7 & L8 & L9 & L10 & L11 & L12 & L13
         & L14 & L15 & L16 & L17 & L18 & L19 & L20 & L21 & L22 & L23 & L24)
        & (name & Lname & Hstrategy) & _).
  split; [| split; [| repeat split]].
  - intros o; destruct o; cbn [option_key member].
    + option_case L0 translate_size_t_Some.
    + option_case L1 translate_int_Some.
    + option_case L2 translate_size_t_Some.
    + option_case L3 translate_double_Some.
    + option_case L4 translate_double_Some.
    + option_case L5 translate_double_Some.
    + option_case L6 translate_double_Some.
    + option_case L7 translate_double_Some.
    + option_case L8 translate_double_Some.
    + option_case L9 translate_double_Some.
    + option_case L10 translate_bool_Some.
    + option_case L11 translate_bool_Some.
    + option_case L12 translate_double_Some.
    + option_case L13 translate_double_Some.
    + option_case L14 translate_size_t_Some.
    + option_case L15 translate_double_Some.
    + option_case L16 translate_bool_Some.
    + option_case L17 translate_bool_Some.
    + option_case L18 translate_double_Some.
    + option_case L19 translate_double_Some.
    + option_case L20 translate_bool_Some.
    + option_case L21 translate_bool_Some.
    + option_case L22 translate_bool_Some.
    + option_case L23 translate_bool_Some.
    + option_case L24 translate_bool_Some.
  - unfold loaded in Lname. destruct (file !! (fieldName +:+ ".strategy")) as [d |].
    + apply translate_string_Some in Lname. eauto.
    + subst name. cbn [strategy_ DDP_Settings_default] in Hstrategy.
      rewrite Hname in Hstrategy. now injection Hstrategy.
  - intros E. unfold loaded in L2. now rewrite E in L2.
  - intros E. unfold loaded in L3. now rewrite E in L3.
  - intros E. unfold loaded in L0. now rewrite E in L0.
  - intros E. unfold loaded in L21. now rewrite E in L21.
Qed.


(** C10.  The settings [loadSettings] loads, or the error it throws, do not
    depend on [verbose], as long as that holds of the [loadSettings] of the
    two structures of strategy settings. *)
Theorem loadSettings_verbose_irrelevant :
  (forall ls file fieldName,
     fst (Line_Search_loadSettings ls file fieldName true)
     = fst (Line_Search_loadSettings ls file fieldName false)) ->
  (forall tr file fieldName,
     fst (Trust_Region_loadSettings tr file fieldName true)
     = fst (Trust_Region_loadSettings tr file fieldName false)) ->
  forall (self : DDP_Settings) (file : ptree) (fieldName : string),
    fst (loadSettings self file fieldName true)
    = fst (loadSettings self file fieldName false).
Proof.
  intros Hls Htr self file fieldName. unfold loadSettings; cbv zeta.
  apply fst_bind_ext; [reflexivity | intros _].
  do 26 (apply fst_bind_ext; [apply loadPtreeValue_verbose | intros ?]).
  apply fst_bind_ext; [reflexivity | intros strategy].
  apply fst_bind_ext.
  - destruct strategy; (apply fst_bind_ext; [| reflexivity]); [apply Hls | apply Htr].
  - intros blocks. apply fst_bind_ext; [reflexivity | reflexivity].
Qed.

(** One call of [loadPtreeValue] in [loadSettings] returns, for the option
    [o] and by the lemma [typed] for the type of its member. *)
Ltac option_returns Htyped o typed :=
  eapply returns_bind;
  [ apply loadPtreeValue_returns;
    let d := fresh "d" in
    let Hd := fresh "Hd" in
    intros d Hd; apply (typed d _ (Htyped o d Hd))
  | intros ? _ ].

(** On the tree of a file, [loadSettings] returns, with the strategy
    [strategy], when every option that the file has holds data of the type
    of its member, the option [strategy] (or, without it, the name of the
    strategy the object has) names [strategy], and the [loadSettings] of the
    block of [strategy] returns. *)
Lemma loadSettings_tree_returns
    (self : DDP_Settings) (file : ptree) (fieldName : string) (verbose : bool)
    (strategy : DDP_Strategy) :
  (forall o d, file !! (fieldName +:+ option_key o) = Some d ->
               type_of d = type_of (member o self)) ->
  match file !! (fieldName +:+ ".strategy") with
  | None => fromString (toString (strategy_ self)) = Ok strategy
  | Some d => exists name, d = PString name /\ fromString name = Ok strategy
  end ->
  match strategy with
  | LINE_SEARCH =>
      returns (Line_Search_loadSettings (lineSearch_ self) file
                 (fieldName +:+ ".lineSearch") verbose) (fun _ => True)
  | TRUST_REGION =>
      returns (Trust_Region_loadSettings (trustRegion_ self) file
                 (fieldName +:+ ".trustRegion") verbose) (fun _ => True)
  end ->
  returns (loadSettings self file fieldName verbose) (fun s => strategy_ s = strategy).
Proof.
  intros Htyped Hname Hblock. unfold loadSettings; cbv zeta.
  eapply returns_bind; [apply returns_print_if | intros _ _].
  option_returns Htyped nThreads typed_size_t.
  option_returns Htyped threadPriority typed_int.
  option_returns Htyped maxNumIterations typed_size_t.
  option_returns Htyped minRelCost typed_double.
  option_returns Htyped stateConstraintPenaltyCoeff typed_double.
  option_returns Htyped stateConstraintPenaltyBase typed_double.
  option_returns Htyped inequalityConstraintMu typed_double.
  option_returns Htyped inequalityConstraintDelta typed_double.
  option_returns Htyped meritFunctionRho typed_double.
  option_returns Htyped constraintStepSize typed_double.
  option_returns Htyped displayInfo typed_bool.
  option_returns Htyped displayShortSummary typed_bool.
  option_returns Htyped AbsTolODE typed_double.
  option_returns Htyped RelTolODE typed_double.
  option_returns Htyped maxNumStepsPerSecond typed_size_t.
  option_returns Htyped minTimeStep typed_double.
  option_returns Htyped simulationIsConstrained typed_bool.
  option_returns Htyped noStateConstraints typed_bool.
  option_returns Htyped minAbsConstraint1ISE typed_double.
  option_returns Htyped minRelConstraint1ISE typed_double.
  option_returns Htyped checkNumericalStability typed_bool.
  option_returns Htyped useRiccatiSolver typed_bool.
  option_returns Htyped useFeedbackPolicy typed_bool.
  option_returns Htyped debugPrintRollout typed_bool.
  option_returns Htyped debugCaching typed_bool.
  eapply returns_bind.
  { apply loadPtreeValue_returns. intros d Hd. rewrite Hd in Hname.
    destruct Hname as (name & -> & _). now eexists. }
  intros strategyName Hloaded.
  assert (fromString strategyName = Ok strategy) as Hfrom.
  { unfold loaded in Hloaded.
    destruct (file !! (fieldName +:+ ".strategy")) as [d |]; [| now subst].
    destruct Hname as (name & -> & Hfrom). now injection Hloaded as <-. }
  eapply returns_bind with (Q := fun st => st = strategy).
  { rewrite Hfrom. now apply returns_ret. }
  intros ? ->.
  eapply returns_bind with (Q := fun _ => True).
  { destruct strategy;
      (eapply returns_bind; [exact Hblock | intros ? _; now apply returns_ret]). }
  intros blocks _.
  eapply returns_bind; [apply returns_print_if | intros _ _].
  now apply returns_ret.
Qed.

(** What [loadSettings] prints.  With [verbose] it starts with the heading:
    an empty line, the title and a rule.  Without [verbose] it prints
    nothing, as long as the [loadSettings] of the two structures of strategy
    settings print nothing then. *)
Theorem loadSettings_prints (self : DDP_Settings) (file : ptree) (fieldName : string) :
  (exists rest,
     snd (loadSettings self file fieldName true)
     = [""; " #### DDP Settings: "; rule] ++ rest)
  /\ ((forall ls name, snd (Line_Search_loadSettings ls file name false) = []) ->
      (forall tr name, snd (Trust_Region_loadSettings tr file name false) = []) ->
      snd (loadSettings self file fieldName false) = []).
Proof.
  split.
  - unfold loadSettings; cbv zeta. rewrite snd_bind. cbn [print_if fst snd]. eauto.
  - intros Hls Htr. unfold loadSettings; cbv zeta.
    apply silent_bind; [reflexivity | intros _].
    do 26 (apply silent_bind; [apply loadPtreeValue_silent | intros ?]).
    apply silent_bind; [reflexivity | intros strategy].
    apply silent_bind.
    + destruct strategy; (apply silent_bind; [| reflexivity]); [apply Hls | apply Htr].
    + intros blocks. apply silent_bind; reflexivity.
Qed.

(** The member of an option after a call that returns, whatever the object
    held before: the data of the option if the file has it, and what the
    member held otherwise. *)
Lemma loadSettings_member (self s : DDP_Settings) (file : ptree) (fieldName : string)
    (verbose : bool) (out : list string) (o : option_name) :
  loadSettings self file fieldName verbose = (Ok s, out) ->
  member o s = default (member o self) (file !! (fieldName +:+ option_key o)).
Proof.
  intros Hload.
  destruct (loadSettings_Ok _ _ _ _ _ _ Hload)
    as ((L0 & L1 & L2 & L3 & L4 & L5 & L6 & L7 & L8 & L9 & L10 & L11 & L12 & L13
         & L14 & L15 & L16 & L17 & L18 & L19 & L20 & L21 & L22 & L23 & L24) & _).
  destruct o; cbn [option_key member].
  - option_case L0 translate_size_t_Some.
  - option_case L1 translate_int_Some.
  - option_case L2 translate_size_t_Some.
  - option_case L3 translate_double_Some.
  - option_case L4 translate_double_Some.
  - option_case L5 translate_double_Some.
  - option_case L6 translate_double_Some.
  - option_case L7 translate_double_Some.
  - option_case L8 translate_double_Some.
  - option_case L9 translate_double_Some.
  - option_case L10 translate_bool_Some.
  - option_case L11 translate_bool_Some.
  - option_case L12 translate_double_Some.
  - option_case L13 translate_double_Some.
  - option_case L14 translate_size_t_Some.
  - option_case L15 translate_double_Some.
  - option_case L16 translate_bool_Some.
  - option_case L17 translate_bool_Some.
  - option_case L18 translate_double_Some.
  - option_case L19 translate_double_Some.
  - option_case L20 translate_bool_Some.
  - option_case L21 translate_bool_Some.
  - option_case L22 translate_bool_Some.
  - option_case L23 translate_bool_Some.
  - option_case L24 translate_bool_Some.
Qed.

(** The strategy after a call that returns: the one the name in the file
    converts to, and the one the object had if the file names none and names
    convert back. *)
Lemma loadSettings_strategy (self s : DDP_Settings) (file : ptree) (fieldName : string)
    (verbose : bool) (out : list string) :
  (forall strategy, fromString (toString strategy) = Ok strategy) ->
  loadSettings self file fieldName verbose = (Ok s, out) ->
  Ok (strategy_ s)
  = match file !! (fieldName +:+ ".strategy") with
    | Some (PString name) => fromString name
    | Some _ => Throw ConfigurationError
    | None => Ok (strategy_ self)
    end.
Proof.
  intros Hname Hload.
  destruct (loadSettings_Ok _ _ _ _ _ _ Hload) as (_ & (name & Lname & Hstrategy) & _).
  unfold loaded in Lname. destruct (file !! (fieldName +:+ ".strategy")) as [d |].
  - apply translate_string_Some in Lname as ->. now rewrite Hstrategy.
  - subst name. rewrite Hname in Hstrategy. now rewrite Hstrategy.
Qed.

(** X8.  Loading a second file after a first one gives, in every member of
    an option and in the strategy, what loading the two files merged gives,
    the second file taking precedence where both have an option.  Loading
    the same file once more changes no such member.  The name of a strategy
    converts back to the strategy. *)
Theorem loadSettings_twice
    (self s1 s2 : DDP_Settings) (file1 file2 : ptree) (fieldName : string)
    (verbose1 verbose2 : bool) (out1 out2 : list string) :
  (forall strategy, fromString (toString strategy) = Ok strategy) ->
  loadSettings self file1 fieldName verbose1 = (Ok s1, out1) ->
  loadSettings s1 file2 fieldName verbose2 = (Ok s2, out2) ->
  (forall (s : DDP_Settings) (verbose : bool) (out : list string),
     loadSettings self (file2 ∪ file1) fieldName verbose = (Ok s, out) ->
     (forall o, member o s2 = member o s) /\ strategy_ s2 = strategy_ s)
  /\ (file2 = file1 -> (forall o, member o s2 = member o s1) /\ strategy_ s2 = strategy_ s1).
Proof.
  intros Hname Hload1 Hload2.
  assert (Hmember : forall o,
             member o s2
             = default (default (member o self) (file1 !! (fieldName +:+ option_key o)))
                 (file2 !! (fieldName +:+ option_key o))).
  { intros o. rewrite (loadSettings_member _ _ _ _ _ _ o Hload2).
    now rewrite (loadSettings_member _ _ _ _ _ _ o Hload1). }
  pose proof (loadSettings_strategy _ _ _ _ _ _ Hname Hload1) as Hs1.
  pose proof (loadSettings_strategy _ _ _ _ _ _ Hname Hload2) as Hs2.
  split.
  - intros s verbose out Hload. split.
    + intros o. rewrite Hmember, (loadSettings_member _ _ _ _ _ _ o Hload).
      rewrite lookup_union.
      now destruct (file2 !! (fieldName +:+ option_key o)),
                   (file1 !! (fieldName +:+ option_key o)).
    + pose proof (loadSettings_strategy _ _ _ _ _ _ Hname Hload) as Hs.
      rewrite lookup_union in Hs.
      destruct (file2 !! (fieldName +:+ ".strategy")) as [d2 |],
               (file1 !! (fieldName +:+ ".strategy")) as [d1 |];
        cbn in Hs; try destruct d2; try destruct d1; congruence.
  - intros ->. split.
    + intros o. rewrite Hmember, (loadSettings_member _ _ _ _ _ _ o Hload1).
      now destruct (file1 !! (fieldName +:+ option_key o)).
    + destruct (file1 !! (fieldName +:+ ".strategy")) as [d1 |];
        try destruct d1; congruence.
Qed.

(** On the tree of a file and with [verbose], what [loadSettings] prints
    starts with the heading (an empty line, the title and a rule), also when
    it throws, and ends with a rule when it returns. *)
Lemma loadSettings_tree_heading_and_rule
    (self : DDP_Settings) (file : ptree) (fieldName : string) :
  (exists rest,
     snd (loadSettings self file fieldName true)
     = [""; " #### DDP Settings: "; rule] ++ rest)
  /\ (forall s out,
        loadSettings self file fieldName true = (Ok s, out) ->
        exists middle, out = [""; " #### DDP Settings: "; rule] ++ middle ++ [rule]).
Proof.
  split.
  - unfold loadSettings; cbv zeta. rewrite snd_bind. cbn [print_if fst snd]. eauto.
  - intros s out Hl. unfold loadSettings in Hl; cbv zeta in Hl.
    bind_inv Hl.
    match goal with L : print_if true _ = (Ok _, ?o) |- _ => injection L as _ <- end.
    do 28 bind_inv Hl. bind_inv Hl.
    match goal with L : print_if true _ = (Ok _, ?o) |- _ => injection L as _ <- end.
    apply ret_Ok in Hl as [_ ->]. subst.
    eexists. rewrite app_nil_r. f_equal. rewrite !app_assoc. reflexivity.
Qed.

(** The members of an option hold data of one type. *)
Lemma member_type (o : option_name) (s s' : DDP_Settings) :
  type_of (member o s) = type_of (member o s').
Proof. now destruct o. Qed.

(** What a call on the tree of a file that returns has met. *)
Lemma loadSettings_tree_returned (self s : DDP_Settings) (file : ptree)
    (fieldName : string) (verbose : bool) (out : list string) :
  loadSettings self file fieldName verbose = (Ok s, out) ->
  (forall o d, file !! (fieldName +:+ option_key o) = Some d ->
               type_of d = type_of (member o self))
  /\ match file !! (fieldName +:+ ".strategy") with
     | None => fromString (toString (strategy_ self)) = Ok (strategy_ s)
     | Some d => exists name, d = PString name /\ fromString name = Ok (strategy_ s)
     end
  /\ match strategy_ s with
     | LINE_SEARCH =>
         returns (Line_Search_loadSettings (lineSearch_ self) file
                    (fieldName +:+ ".lineSearch") verbose) (fun _ => True)
     | TRUST_REGION =>
         returns (Trust_Region_loadSettings (trustRegion_ self) file
                    (fieldName +:+ ".trustRegion") verbose) (fun _ => True)
     end.
Proof.
  intros Hload. split; [| split].
  - intros o d Hd. pose proof (loadSettings_member _ _ _ _ _ _ o Hload) as Hm.
    rewrite Hd in Hm. change d with (default (member o self) (Some d)).
    rewrite <- Hm. apply member_type.
  - destruct (loadSettings_Ok _ _ _ _ _ _ Hload) as (_ & (name & Lname & Hfrom) & _).
    unfold loaded in Lname. destruct (file !! (fieldName +:+ ".strategy")) as [d |].
    + apply translate_string_Some in Lname. eauto.
    + now subst name.
  - destruct (loadSettings_Ok _ _ _ _ _ _ Hload) as (_ & _ & Hblock).
    destruct (strategy_ s); destruct Hblock as [[o Ho] _];
      eexists _, _; (split; [exact Ho | exact I]).
Qed.

(** X7.  [loadSettings] reads the file before it prints: when the file
    cannot be read it throws with nothing printed, whatever [verbose] is.
    When the file can be read and [verbose] is set, what it prints starts
    with the heading (an empty line, the title and a rule), also when it
    throws later, and ends with a rule when it returns. *)
Theorem loadSettings_heading_and_rule
    (self : DDP_Settings) (fs : files) (filename fieldName : string) :
  (fs !! filename = None ->
   forall verbose,
     loadSettings_file self fs filename fieldName verbose = (Throw ConfigurationError, []))
  /\ (forall file, fs !! filename = Some file ->
        (exists rest,
           snd (loadSettings_file self fs filename fieldName true)
           = [""; " #### DDP Settings: "; rule] ++ rest)
        /\ (forall s out,
              loadSettings_file self fs filename fieldName true = (Ok s, out) ->
              exists middle,
                out = [""; " #### DDP Settings: "; rule] ++ middle ++ [rule])).
Proof.
  unfold loadSettings_file, read_info. split.
  - now intros ->.
  - intros file ->. rewrite ret_bind. apply loadSettings_tree_heading_and_rule.
Qed.

(** X9.  When [loadSettings] returns.  It returns, with the strategy
    [strategy], exactly when the file can be read, every option that the
    file has holds data of the type of its member, the option [strategy]
    (or, without it, the name of the strategy the object has) names
    [strategy], and the [loadSettings] of the block of [strategy] returns. *)
Theorem loadSettings_returns
    (self : DDP_Settings) (fs : files) (filename fieldName : string) (verbose : bool)
    (strategy : DDP_Strategy) :
  returns (loadSettings_file self fs filename fieldName verbose)
          (fun s => strategy_ s = strategy)
  <-> exists file,
        fs !! filename = Some file
        /\ (forall o d, file !! (fieldName +:+ option_key o) = Some d ->
                        type_of d = type_of (member o self))
        /\ match file !! (fieldName +:+ ".strategy") with
           | None => fromString (toString (strategy_ self)) = Ok strategy
           | Some d => exists name, d = PString name /\ fromString name = Ok strategy
           end
        /\ match strategy with
           | LINE_SEARCH =>
               returns (Line_Search_loadSettings (lineSearch_ self) file
                          (fieldName +:+ ".lineSearch") verbose) (fun _ => True)
           | TRUST_REGION =>
               returns (Trust_Region_loadSettings (trustRegion_ self) file
                          (fieldName +:+ ".trustRegion") verbose) (fun _ => True)
           end.
Proof.
  unfold loadSettings_file, read_info. split.
  - intros (s & out & Hload & <-).
    destruct (fs !! filename) as [file |]; [| discriminate].
    rewrite ret_bind in Hload. exists file. split; [reflexivity |].
    now apply loadSettings_tree_returned with (out := out).
  - intros (file & -> & Htyped & Hname & Hblock). rewrite ret_bind.
    now apply loadSettings_tree_returns.
Qed.

End load.

(** The default values fit together: the tolerances and the thresholds are
    positive, the absolute tolerance of the ODE solver is below the relative
    one, the penalty of the state-only constraints and the barrier of the
    inequality constraints are off, and steps of the minimum size stay within
    the cap on the steps per second. *)
Theorem DDP_Settings_default_consistent `{Strategy_Settings} :
  let s := DDP_Settings_default in
  (0 < absTolODE_ s /\ absTolODE_ s < relTolODE_ s)
  /\ (0 < minRelCost_ s /\ 0 < minAbsConstraint1ISE_ s /\ 0 < minRelConstraint1ISE_ s)
  /\ (stateConstraintPenaltyCoeff_ s = 0 /\ inequalityConstraintMu_ s = 0
      /\ 0 < inequalityConstraintDelta_ s)
  /\ (0 < minTimeStep_ s
      /\ 1 <= minTimeStep_ s * Q2Qc (Z.of_N (maxNumStepsPerSecond_ s) # 1))
  /\ (0 < maxNumIterations_ s /\ 0 < nThreads_ s)%N.
Proof.
  cbv zeta. cbn [absTolODE_ relTolODE_ minRelCost_ minAbsConstraint1ISE_
                 minRelConstraint1ISE_ stateConstraintPenaltyCoeff_
                 inequalityConstraintMu_ inequalityConstraintDelta_ minTimeStep_
                 maxNumStepsPerSecond_ maxNumIterations_ nThreads_ DDP_Settings_default].
  repeat split; try reflexivity; discriminate.
Qed.

(** The statements at the configuration of [example]. *)

Lemma loadSettings_defaults_and_overrides_witness :
  (forall strategy,
     @fromString example.strategy_settings (@toString example.strategy_settings strategy)
     = Ok strategy)
  /\ loadSettings example.default example.file "ddp" false = (Ok example.settings, [])
  /\ (forall o : option_name,
        match example.file !! ("ddp" +:+ option_key o) with
        | None => member o example.settings = member o example.default
        | Some d => member o example.settings = d
        end)
  /\ (example.file !! ("ddp" +:+ ".nThreads") = None -> nThreads_ example.settings = 1%N).
Proof.
  assert (Hname : forall strategy,
             @fromString example.strategy_settings
               (@toString example.strategy_settings strategy) = Ok strategy)
    by (intros []; reflexivity).
  assert (Hload : loadSettings example.default example.file "ddp" false
                  = (Ok example.settings, []))
    by (vm_compute; reflexivity).
  split; [exact Hname | split; [exact Hload |]].
  pose proof (loadSettings_defaults_and_overrides
                example.file "ddp" false example.settings [] Hname Hload)
    as (Hoption & _ & _ & _ & Hthreads & _).
  split; [exact Hoption | exact Hthreads].
Defined.


Lemma loadSettings_twice_witness :
  (forall o, member o example.reloaded = member o example.merged)
  /\ strategy_ example.reloaded = strategy_ example.merged
  /\ noStateConstraints_ example.reloaded = true
  /\ maxNumIterations_ example.reloaded = 20%N.
Proof.
  assert (Hname : forall strategy,
             @fromString example.strategy_settings
               (@toString example.strategy_settings strategy) = Ok strategy)
    by (intros []; reflexivity).
  assert (Hload1 : loadSettings example.default example.file "ddp" false
                   = (Ok example.settings, []))
    by (vm_compute; reflexivity).
  assert (Hload2 : loadSettings example.settings example.fast_file "ddp" false
                   = (Ok example.reloaded, []))
    by (vm_compute; reflexivity).
  assert (Hmerged : loadSettings example.default (example.fast_file ∪ example.file)
                      "ddp" false
                    = (Ok example.merged, []))
    by (vm_compute; reflexivity).
  destruct (loadSettings_twice _ _ _ _ _ _ _ _ _ _ Hname Hload1 Hload2) as [Hmerge _].
  destruct (Hmerge example.merged false [] Hmerged) as [Hmembers Hstrategy].
  split; [exact Hmembers | split; [exact Hstrategy | split; reflexivity]].
Defined.

Lemma loadSettings_returns_witness :
  returns (loadSettings_file example.default example.config_files "config.info" "ddp" false)
          (fun s => strategy_ s = TRUST_REGION)
  /\ loadSettings_file example.default example.config_files "missing.info" "ddp" true
     = (Throw ConfigurationError, []).
Proof.
  split; [| reflexivity].
  apply (loadSettings_returns example.default example.config_files "config.info" "ddp"
           false TRUST_REGION).
  exists example.file. split; [reflexivity |]. split; [| split].
  - intros o d. destruct o; vm_compute; (discriminate || (intros [= <-]; reflexivity)).
  - vm_compute. eexists. split; reflexivity.
  - eexists _, _. split; [vm_compute; reflexivity | exact I].
Defined.

Lemma loadSettings_verbose_irrelevant_witness :
  fst (loadSettings example.default example.file "ddp" true)
  = fst (loadSettings example.default example.file "ddp" false).
Proof.
  apply loadSettings_verbose_irrelevant.
  - intros ls file fieldName. apply loadPtreeValue_verbose.
  - intros tr file fieldName. apply loadPtreeValue_verbose.
Defined.

End ddp_facts.

(** ** The penalty of the state-only constraints *)

Module constraint_handling_facts.
Import ddp constraint_handling.

(** C4.  At every outer iteration [i] the penalty of the state-only
    constraints is [stateConstraintPenaltyCoeff_] times
    [stateConstraintPenaltyBase_] to the power [i]: it starts at the
    coefficient and is multiplied by the base from one iteration to the
    next.  With the default values 0 and 1 of the two members the penalty is
    0 at every iteration. *)
Theorem stateConstraintPenalty_geometric `{Strategy_Settings}
    (settings : DDP_Settings) (i : nat) :
  stateConstraintPenalty settings i
  = stateConstraintPenaltyCoeff_ settings * stateConstraintPenaltyBase_ settings ^ i
  /\ stateConstraintPenalty settings 0 = stateConstraintPenaltyCoeff_ settings
  /\ stateConstraintPenalty settings (S i)
     = stateConstraintPenaltyBase_ settings * stateConstraintPenalty settings i
  /\ stateConstraintPenaltyCoeff_ DDP_Settings_default = 0
  /\ stateConstraintPenaltyBase_ DDP_Settings_default = 1
  /\ stateConstraintPenalty DDP_Settings_default i = 0.
Proof.
  unfold stateConstraintPenalty. repeat split.
  - cbn [Qcpower]. ring.
  - cbn [Qcpower]. ring.
  - cbn [stateConstraintPenaltyCoeff_ stateConstraintPenaltyBase_ DDP_Settings_default].
    ring.
Qed.

(** Without state-only constraints there is no squared error. *)
Lemma squaredError_no_constraints (p : Problem) (x : @Sample p) :
  @squaredError (with_constraints p []) x = 0.
Proof. reflexivity. Qed.

Lemma ISE_no_constraints (p : Problem) (trajectory : list (@Sample p)) :
  fold_right (fun x acc => @weight p x * @squaredError (with_constraints p []) x + acc)
    0 trajectory = 0.
Proof.
  induction trajectory as [| x rest IH]; [reflexivity |].
  cbn [fold_right]. rewrite IH, squaredError_no_constraints. ring.
Qed.

(** C7.  With [noStateConstraints_] set, the state-only constraints of a
    problem are ignored: the constraint ISE is not computed, no penalty is
    added to a cost term, and so an outer iteration takes from the
    constraint handling exactly what it takes for the same problem without
    its state-only constraints.  For that problem the cost terms are the
    plain ones whatever the flag is, and a constraint ISE that is computed
    is zero. *)
Theorem noStateConstraints_ignores_constraints `{Strategy_Settings}
    (p : Problem) (settings : DDP_Settings) (iteration : nat)
    (trajectory : list (@Sample p)) :
  noStateConstraints_ settings = true ->
  @constraintISE _ p settings trajectory = None
  /\ (forall x, @penalizedCost _ p settings iteration x = @cost p x)
  /\ @handled _ p settings iteration trajectory
     = @handled _ (with_constraints p []) settings iteration trajectory
  /\ (forall settings' : DDP_Settings,
        (forall x, @penalizedCost _ (with_constraints p []) settings' iteration x = @cost p x)
        /\ (@constraintISE _ (with_constraints p []) settings' trajectory = None
            \/ @constraintISE _ (with_constraints p []) settings' trajectory = Some 0)).
Proof.
  intros Hflag.
  assert (Hoff : stateConstraintsActive settings = false)
    by (unfold stateConstraintsActive; now rewrite Hflag).
  split; [| split; [| split]].
  - unfold constraintISE. now rewrite Hoff.
  - intros x. unfold penalizedCost. now rewrite Hoff.
  - unfold handled, constraintISE. rewrite Hoff. f_equal.
    apply map_ext. intros x. unfold penalizedCost. now rewrite Hoff.
  - intros settings'. split.
    + intros x. unfold penalizedCost.
      destruct (stateConstraintsActive settings'); [| reflexivity].
      unfold squaredError; cbn [stateOnlyConstraints with_constraints fold_right cost]. ring.
    + unfold constraintISE. destruct (stateConstraintsActive settings'); [right | now left].
      f_equal. exact (ISE_no_constraints p trajectory).
Qed.


Lemma noStateConstraints_ignores_constraints_witness :
  noStateConstraints_ example.fast_settings = true
  /\ @handled _ example.problem example.fast_settings 3 [Q2Qc 2; Q2Qc 5]
     = ([Q2Qc 4; Q2Qc 25], None).
Proof.
  assert (Hflag : noStateConstraints_ example.fast_settings = true)
    by (vm_compute; reflexivity).
  split; [exact Hflag |].
  destruct (noStateConstraints_ignores_constraints
              example.problem example.fast_settings 3 [Q2Qc 2; Q2Qc 5] Hflag)
    as (HISE & Hcost & _ & _).
  unfold handled. rewrite HISE. cbn [map]. rewrite !Hcost.
  reflexivity.
Defined.

End constraint_handling_facts.

(** ** The check of the backward pass *)

Module backward_pass_facts.
Import io ddp backward_pass.

Section check.
Context `{Strategy_Settings} `{Riccati}.

(** With the check, a backward pass returns the gains of the recursion when
    the Hessian at every sample, the terminal one included, is positive
    semidefinite, and fails otherwise. *)
Lemma backwardPass_checked (settings : DDP_Settings) (models : list LocalModel) (V : Hessian) :
  checkNumericalStability_ settings = true ->
  backwardPass settings models V
  = if forallb positive_semidefinite (V :: hessians models V)
    then Ok (gains_of models V)
    else Throw NumericalInstability.
Proof.
  intros Hcheck. revert V.
  induction models as [| m earlier IH]; intros V;
    cbn [backwardPass hessians gains_of forallb]; rewrite Hcheck;
    destruct (positive_semidefinite V); cbn [negb andb]; try reflexivity.
  rewrite IH. cbn [forallb].
  now destruct (positive_semidefinite (riccati_step m V)
                && forallb positive_semidefinite (hessians earlier (riccati_step m V))).
Qed.

(** A backward pass fails with [NumericalInstability] only. *)
Lemma backwardPass_Throw (settings : DDP_Settings) (models : list LocalModel) (V : Hessian)
    (e : Error) :
  backwardPass settings models V = Throw e -> e = NumericalInstability.
Proof.
  revert V. induction models as [| m earlier IH]; intros V; cbn [backwardPass];
    destruct (checkNumericalStability_ settings && negb (positive_semidefinite V));
    try (now intros [= <-]); try discriminate.
  destruct (backwardPass settings earlier (riccati_step m V)) eqn:E; [discriminate |].
  intros [= <-]. eapply IH, E.
Qed.

(** The retries: at most [attempts] of them, each on the local models
    regularized once more; the first pass that returns ends them, and the
    solve fails when none does. *)
Lemma backwardPassWithRetry_outcome (settings : DDP_Settings) (V : Hessian) :
  forall (attempts : nat) (models : list LocalModel),
    let r := fst (backwardPassWithRetry attempts settings models V) in
    let passes := snd (backwardPassWithRetry attempts settings models V) in
    (1 <= passes <= S attempts)%nat
    /\ (forall k, (S k < passes)%nat ->
          backwardPass settings (regularized k models) V = Throw NumericalInstability)
    /\ backwardPass settings (regularized (pred passes) models) V = r
    /\ (forall e, r = Throw e -> e = NumericalInstability /\ passes = S attempts).
Proof.
  assert (Hshift : forall k models,
             regularized k (map regularize models) = regularized (S k) models).
  { intros k models. unfold regularized. symmetry. apply Nat.iter_succ_r. }
  induction attempts as [| attempts IH]; intros models; cbn zeta;
    cbn [backwardPassWithRetry];
    destruct (backwardPass settings models V) as [gains | err] eqn:E.
  - cbn. split; [lia | split; [intros k Hk; lia | split; [exact E | discriminate]]].
  - pose proof (backwardPass_Throw _ _ _ _ E) as ->. cbn.
    split; [lia | split; [intros k Hk; lia | split; [exact E | now intros e [= <-]]]].
  - cbn. split; [lia | split; [intros k Hk; lia | split; [exact E | discriminate]]].
  - pose proof (backwardPass_Throw _ _ _ _ E) as ->.
    specialize (IH (map regularize models)). cbn zeta in IH.
    destruct (backwardPassWithRetry attempts settings (map regularize models) V)
      as [r passes].
    cbn [fst snd] in *. destruct IH as ((H1 & H2) & Hfailed & Hlast & Hthrow).
    split; [lia | split; [| split]].
    + intros [| k] Hk; [exact E |]. rewrite <- Hshift. apply Hfailed. lia.
    + destruct passes as [| passes]; [lia |]. cbn [pred] in *.
      rewrite <- Hshift. exact Hlast.
    + intros e He. apply Hthrow in He as [-> ->]. split; reflexivity.
Qed.

Lemma forallb_true_Forall {A} (f : A -> bool) (l : list A) :
  forallb f l = true <-> Forall (fun x => f x = true) l.
Proof.
  induction l as [| x l IH]; cbn [forallb].
  - split; [constructor | reflexivity].
  - rewrite andb_true_iff, IH. split.
    + intros [Hx Hl]. now constructor.
    + intros Hall. inversion Hall; subst. now split.
Qed.

Lemma forallb_false_Exists {A} (f : A -> bool) (l : list A) :
  forallb f l = false <-> Exists (fun x => f x = false) l.
Proof.
  induction l as [| x l IH]; cbn [forallb].
  - split; [discriminate | intros Hex; inversion Hex].
  - rewrite andb_false_iff, IH. split.
    + intros [Hx | Hl]; [now left | now right].
    + intros Hex. inversion Hex; subst; [now left | now right].
Qed.

(** C8.  With [checkNumericalStability_] set, a backward pass that returns
    gains has found the Hessian of the value function positive semidefinite
    at every sample, from the one at the terminal time on, and the gains
    are those of the recursion; when the
    Hessian at some sample is not positive semidefinite the pass fails with
    [NumericalInstability] and returns no gain.  The solver retries a failed
    pass on regularized Hessians, [attempts] times at most: it runs between
    one and [attempts + 1] passes, the result is the one of the last pass it
    ran, and it fails, with [NumericalInstability], only when that was pass
    [attempts + 1] and every pass before it, as the last one, had met a
    Hessian that is not positive semidefinite. *)
Theorem backwardPass_checks_stability
    (settings : DDP_Settings) (attempts : nat) (models : list LocalModel) (V : Hessian) :
  checkNumericalStability_ settings = true ->
  let unstable ms :=
    Exists (fun W => positive_semidefinite W = false) (V :: hessians ms V) in
  let stable ms :=
    Forall (fun W => positive_semidefinite W = true) (V :: hessians ms V) in
  (forall gains, backwardPass settings models V = Ok gains ->
     stable models /\ gains = gains_of models V)
  /\ (unstable models -> backwardPass settings models V = Throw NumericalInstability)
  /\ let r := fst (backwardPassWithRetry attempts settings models V) in
     let passes := snd (backwardPassWithRetry attempts settings models V) in
     (1 <= passes <= S attempts)%nat
     /\ (forall gains, r = Ok gains ->
           stable (regularized (pred passes) models)
           /\ gains = gains_of (regularized (pred passes) models) V)
     /\ (forall e, r = Throw e ->
           e = NumericalInstability /\ passes = S attempts
           /\ forall k, (k <= attempts)%nat -> unstable (regularized k models)).
Proof.
  intros Hcheck unstable stable.
  assert (Hpass : forall ms gains,
             backwardPass settings ms V = Ok gains ->
             stable ms /\ gains = gains_of ms V).
  { intros ms gains. rewrite (backwardPass_checked settings ms V Hcheck).
    destruct (forallb positive_semidefinite (V :: hessians ms V)) eqn:E; [| discriminate].
    intros [= <-]. split; [now apply forallb_true_Forall | reflexivity]. }
  assert (Hfail : forall ms,
             backwardPass settings ms V = Throw NumericalInstability <-> unstable ms).
  { intros ms. rewrite (backwardPass_checked settings ms V Hcheck).
    unfold unstable. rewrite <- forallb_false_Exists.
    destruct (forallb positive_semidefinite (V :: hessians ms V)); split;
      congruence || discriminate. }
  split; [apply Hpass | split; [apply Hfail |]].
  intros r passes.
  destruct (backwardPassWithRetry_outcome settings V attempts models)
    as (Hbound & Hfailed & Hlast & Hthrow).
  fold r passes in Hbound, Hfailed, Hlast, Hthrow.
  split; [exact Hbound | split].
  - intros gains Hr. apply Hpass. now rewrite Hlast.
  - intros e Hr. destruct (Hthrow e Hr) as [-> Hall].
    split; [reflexivity | split; [exact Hall |]].
    intros k Hk. apply Hfail.
    destruct (decide (S k < passes)%nat) as [Hlt | Hge]; [now apply Hfailed |].
    assert (k = pred passes) as -> by lia. now rewrite Hlast.
Qed.

End check.

(** The statement for the scalar recursion of [example] and the default
    settings, which set the check.  The first pass meets the Hessian -2, the
    pass after one regularization meets -1, and with one retry the solve
    fails.  A pass from a terminal Hessian that is not positive
    semidefinite fails as well, whatever the Hessians before it are. *)


Lemma backwardPass_checks_stability_witness :
  checkNumericalStability_ example.default = true
  /\ backwardPass example.default example.models example.terminal
     = Throw NumericalInstability
  /\ (snd (backwardPassWithRetry 1 example.default example.models example.terminal)
      <= 2)%nat
  /\ backwardPass example.default example.models_above example.indefinite_terminal
     = Throw NumericalInstability.
Proof.
  split; [reflexivity |].
  destruct (backwardPass_checks_stability
              example.default 1 example.models example.terminal eq_refl)
    as (_ & Hfail & Hbound & _).
  destruct (backwardPass_checks_stability
              example.default 0 example.models_above example.indefinite_terminal eq_refl)
    as (_ & Hterminal & _).
  split; [| split; [apply Hbound |]].
  - apply Hfail. right. left. reflexivity.
  - apply Hterminal. left. reflexivity.
Defined.

End backward_pass_facts.

(** ** The step size control of the rollout *)

Module rollout_facts.
Import io ddp rollout.

Lemma first_step_min (minTimeStep h : Qc) : minTimeStep <= first_step minTimeStep h.
Proof.
  unfold first_step. destruct (decide (h <= minTimeStep)) as [_ | N].
  - apply Qcle_refl.
  - apply Qclt_le_weak, Qcnot_le_lt, N.
Qed.

(** The retries: each is smaller than the size before it and not below the
    minimum step size, and the minimum step size is the last size tried. *)
Lemma retry_steps_down (minTimeStep : Qc) (proposed : list Qc) :
  forall first : Qc,
    minTimeStep <= first ->
    Forall (fun h => minTimeStep <= h /\ h < first) (retry_steps minTimeStep first proposed)
    /\ StronglySorted (fun h h' => h' < h) (retry_steps minTimeStep first proposed)
    /\ last (first :: retry_steps minTimeStep first proposed) = Some minTimeStep.
Proof.
  induction proposed as [| h later IH]; intros first Hmin; cbn [retry_steps].
  - destruct (decide (minTimeStep < first)) as [Hlt | Hge].
    + split; [| split; [| reflexivity]].
      * constructor; [| constructor]. split; [apply Qcle_refl | exact Hlt].
      * constructor; constructor.
    + split; [constructor | split; [constructor |]]. cbn [last]. f_equal.
      apply Qcnot_lt_le in Hge. now apply Qcle_antisym.
  - destruct (decide (minTimeStep < h /\ h < first)) as [[Hh Hfirst] | _]; [| now apply IH].
    destruct (IH h (Qclt_le_weak _ _ Hh)) as (Hall & Hsorted & Hend).
    split; [| split].
    + constructor; [split; [now apply Qclt_le_weak | exact Hfirst] |].
      eapply Forall_impl; [exact Hall |]. cbv beta. intros s [H1 H2].
      split; [exact H1 | now apply Qclt_trans with h].
    + constructor; [exact Hsorted |].
      eapply Forall_impl; [exact Hall |]. cbv beta. now intros s [_ H2].
    + rewrite last_cons_cons. exact Hend.
Qed.

(** The step that is accepted, and the steps that were rejected before it. *)
Lemma accept_Ok (exceeds : Qc -> bool) (sizes : list Qc) (h : Qc) :
  accept exceeds sizes = Ok h ->
  exists rejected smaller,
    sizes = rejected ++ h :: smaller
    /\ Forall (fun r => exceeds r = true) rejected
    /\ exceeds h = false.
Proof.
  induction sizes as [| s sizes IH]; cbn [accept]; [discriminate |].
  destruct (exceeds s) eqn:E.
  - intros Hok. destruct (IH Hok) as (rejected & smaller & -> & Hall & Hh).
    exists (s :: rejected), smaller. split; [reflexivity |]. split; [| exact Hh].
    now constructor.
  - intros [= <-]. exists [], sizes. split; [reflexivity |]. split; [constructor | exact E].
Qed.

Lemma accept_Throw (exceeds : Qc -> bool) (sizes : list Qc) :
  (forall e, accept exceeds sizes = Throw e ->
     e = IntegrationFailure /\ Forall (fun r => exceeds r = true) sizes)
  /\ (Forall (fun r => exceeds r = true) sizes ->
      accept exceeds sizes = Throw IntegrationFailure).
Proof.
  induction sizes as [| s sizes [IH1 IH2]]; cbn [accept].
  - split; [intros e [= <-]; split; [reflexivity | constructor] | reflexivity].
  - destruct (exceeds s) eqn:E; split.
    + intros e He. destruct (IH1 e He) as [-> Hall]. split; [reflexivity | now constructor].
    + intros Hall. apply IH2. now inversion Hall.
    + discriminate.
    + intros Hall. inversion Hall; subst. congruence.
Qed.

Section step.
Context `{Strategy_Settings} `{Integrator}.

(** The sizes a step is tried with: not below the minimum step size, each
    smaller than the one before it, the minimum step size last. *)
Lemma step_sizes_down (settings : DDP_Settings) (t : Qc) (x : State) (h : Qc) :
  Forall (fun s => minTimeStep_ settings <= s) (step_sizes settings t x h)
  /\ StronglySorted (fun s s' => s' < s) (step_sizes settings t x h)
  /\ last (step_sizes settings t x h) = Some (minTimeStep_ settings).
Proof.
  unfold step_sizes.
  pose proof (first_step_min (minTimeStep_ settings) h) as Hfirst.
  destruct (retry_steps_down (minTimeStep_ settings)
              (smaller_steps t x (first_step (minTimeStep_ settings) h))
              (first_step (minTimeStep_ settings) h) Hfirst)
    as (Hall & Hsorted & Hend).
  split; [| split; [| exact Hend]].
  - constructor; [exact Hfirst |].
    eapply Forall_impl; [exact Hall |]. cbv beta. now intros s [H1 _].
  - constructor; [exact Hsorted |].
    eapply Forall_impl; [exact Hall |]. cbv beta. now intros s [_ H2].
Qed.

(** A step fails with [IntegrationFailure] only, and then the local error
    exceeds the tolerance at every size it was tried with, the minimum step
    size among them. *)
Lemma integrate_step_Throw (settings : DDP_Settings) (t : Qc) (x : State) (h : Qc)
    (e : Error) :
  integrate_step settings t x h = Throw e ->
  e = IntegrationFailure
  /\ Forall (fun r => exceeds_tolerance (absTolODE_ settings) (relTolODE_ settings) t x r
                      = true)
       (step_sizes settings t x h)
  /\ exceeds_tolerance (absTolODE_ settings) (relTolODE_ settings) t x
       (minTimeStep_ settings) = true.
Proof.
  unfold integrate_step. intros He.
  destruct (proj1 (accept_Throw _ _) _ He) as [-> Hall].
  split; [reflexivity |]. split; [exact Hall |].
  destruct (step_sizes_down settings t x h) as (_ & _ & Hend).
  rewrite Forall_forall in Hall. apply Hall, last_Some_elem_of, Hend.
Qed.

(** A rollout fails at one of its steps: the steps before it are accepted,
    and the one that starts where they end fails with [IntegrationFailure],
    the local error of the step of the minimum size exceeding the
    tolerance there. *)
Lemma rollout_Throw (settings : DDP_Settings) (n : nat) :
  forall (t : Qc) (x : State) (h : Qc) (e : Error),
    rollout settings n t x h = Throw e ->
    e = IntegrationFailure
    /\ exists k t' x' h',
         (k < n)%nat
         /\ start_of_step settings k t x h = Ok (t', x', h')
         /\ integrate_step settings t' x' h' = Throw IntegrationFailure
         /\ exceeds_tolerance (absTolODE_ settings) (relTolODE_ settings) t' x'
              (minTimeStep_ settings) = true.
Proof.
  induction n as [| n IH]; intros t x h e; cbn [rollout]; [discriminate |].
  destruct (integrate_step settings t x h) as [h' | e'] eqn:E.
  - destruct (rollout settings n (t + h') (step t x h') h') eqn:E'; [discriminate |].
    intros [= <-]. destruct (IH _ _ _ _ E') as (-> & k & t' & x' & h'' & Hk & Hstart & Hfail).
    split; [reflexivity |]. exists (S k), t', x', h''.
    split; [lia |]. cbn [start_of_step]. rewrite E. split; [exact Hstart | exact Hfail].
  - intros [= <-]. destruct (integrate_step_Throw _ _ _ _ _ E) as (-> & _ & Hmin).
    split; [reflexivity |]. exists 0%nat, t, x, h.
    split; [lia |]. split; [reflexivity |]. split; [exact E | exact Hmin].
Qed.

(** A step that fails makes the rollout fail. *)
Lemma rollout_fails (settings : DDP_Settings) (k : nat) :
  forall (n : nat) (t : Qc) (x : State) (h : Qc) (t' : Qc) (x' : State) (h' : Qc)
         (e : Error),
    (k < n)%nat ->
    start_of_step settings k t x h = Ok (t', x', h') ->
    integrate_step settings t' x' h' = Throw e ->
    rollout settings n t x h = Throw e.
Proof.
  induction k as [| k IH]; intros [| n] t x h t' x' h' e Hk; try lia;
    cbn [start_of_step rollout].
  - intros [= <- <- <-] ->. reflexivity.
  - destruct (integrate_step settings t x h) as [h1 | e1]; [| discriminate].
    intros Hstart Hfail. now rewrite (IH n _ _ _ _ _ _ e ltac:(lia) Hstart Hfail).
Qed.

(** C6.  A step of a rollout is tried with sizes that are not below
    [minTimeStep_], each smaller than the one before it, the last of them
    [minTimeStep_] itself.  A size whose local error exceeds the tolerance
    is rejected and the step is retried with the next, smaller size: the
    step ends with the first size whose local error is within the tolerance,
    all sizes before it rejected, or, when the tolerance is not met at
    [minTimeStep_] either, with [IntegrationFailure].  A rollout fails only
    in this way: with [IntegrationFailure], at a step that starts where the
    steps before it have led and where the tolerance is not met at
    [minTimeStep_].  And when no size from [minTimeStep_] up meets the
    tolerance where a step of the rollout starts (the trajectory needs a
    finer resolution than [minTimeStep_] allows), the rollout fails with
    [IntegrationFailure]. *)
Theorem integrate_step_down_to_minTimeStep
    (settings : DDP_Settings) (n : nat) (t : Qc) (x : State) (h : Qc) :
  let exceeds t x := exceeds_tolerance (absTolODE_ settings) (relTolODE_ settings) t x in
  (Forall (fun s => minTimeStep_ settings <= s) (step_sizes settings t x h)
   /\ StronglySorted (fun s s' => s' < s) (step_sizes settings t x h)
   /\ last (step_sizes settings t x h) = Some (minTimeStep_ settings))
  /\ (forall s, integrate_step settings t x h = Ok s ->
        exists rejected smaller,
          step_sizes settings t x h = rejected ++ s :: smaller
          /\ Forall (fun r => exceeds t x r = true) rejected
          /\ exceeds t x s = false)
  /\ (forall e, integrate_step settings t x h = Throw e ->
        e = IntegrationFailure
        /\ Forall (fun r => exceeds t x r = true) (step_sizes settings t x h)
        /\ exceeds t x (minTimeStep_ settings) = true)
  /\ (forall e, rollout settings n t x h = Throw e ->
        e = IntegrationFailure
        /\ exists k t' x' h',
             (k < n)%nat
             /\ start_of_step settings k t x h = Ok (t', x', h')
             /\ integrate_step settings t' x' h' = Throw IntegrationFailure
             /\ exceeds t' x' (minTimeStep_ settings) = true)
  /\ (forall k t' x' h',
        (k < n)%nat ->
        start_of_step settings k t x h = Ok (t', x', h') ->
        (forall s, minTimeStep_ settings <= s -> exceeds t' x' s = true) ->
        integrate_step settings t' x' h' = Throw IntegrationFailure
        /\ rollout settings n t x h = Throw IntegrationFailure).
Proof.
  intros exceeds. split; [apply step_sizes_down |].
  split; [intros s; apply accept_Ok |].
  split; [apply integrate_step_Throw |].
  split; [apply rollout_Throw |].
  intros k t' x' h' Hk Hstart Hall.
  assert (integrate_step settings t' x' h' = Throw IntegrationFailure) as Hstep.
  { apply accept_Throw.
    destruct (step_sizes_down settings t' x' h') as (Hmin & _).
    eapply Forall_impl; [exact Hmin |]. exact Hall. }
  split; [exact Hstep |]. exact (rollout_fails settings k n t x h t' x' h' _ Hk Hstart Hstep).
Qed.

End step.

(** The statement for the default settings, whose [minTimeStep_] is 1/1000.
    With the integrator [example.halving] a step that is started with the
    size 1/100 is tried with 1/100, 1/200, 1/400, 1/800 and 1/1000, the
    proposed size 1/1600 being below the minimum; it fails, and with it the
    rollout.  With the integrator [example.coarse] the same step is
    accepted with the size 1/400, and a step that is started with the size
    1/2000 is taken with the size 1/1000. *)


Lemma integrate_step_down_to_minTimeStep_witness :
  step_sizes example.default 0 (tt : @State example.halving) (Q2Qc (1 # 100))
  = [Q2Qc (1 # 100); Q2Qc (1 # 200); Q2Qc (1 # 400); Q2Qc (1 # 800); Q2Qc (1 # 1000)]
  /\ rollout example.default 3 0 (tt : @State example.halving) (Q2Qc (1 # 100))
     = Throw IntegrationFailure
  /\ integrate_step example.default 0 (tt : @State example.coarse) (Q2Qc (1 # 100))
     = Ok (Q2Qc (1 # 400))
  /\ integrate_step example.default 0 (tt : @State example.coarse) (Q2Qc (1 # 2000))
     = Ok (Q2Qc (1 # 1000)).
Proof.
  split; [vm_compute; reflexivity |].
  split; [| split; vm_compute; reflexivity].
  destruct (integrate_step_down_to_minTimeStep
              example.default 3 0 (tt : @State example.halving) (Q2Qc (1 # 100)))
    as (_ & _ & _ & _ & Hfail).
  apply (Hfail 0%nat 0 tt (Q2Qc (1 # 100))); [lia | reflexivity |].
  intros s Hs. apply bool_decide_eq_true.
  apply Qcle_trans with (2 := Hs). discriminate.
Defined.

End rollout_facts.
